(** * Stake manager of the polybft consensus: stake map, committee selection
      and validator-set delta.

    A shallow embedding of [stake_manager.go] (package [polybft]) and the
    properties of its stake-tracking and delta engine. *)

From Stdlib Require Import ZArith NArith Lia.
From Stdlib Require Import Strings.Byte.
From stdpp Require Import base option list sorting gmap strings.

Local Open Scope Z_scope.

(** ** Addresses and byte order *)

(** [types.Address] is an array of 20 bytes; the raw bytes are kept as a
    list. *)
Module types.
Abbreviation Address := (list byte).
End types.

#[global] Instance byte_eq_dec : EqDecision byte := Byte.byte_eq_dec.
#[global] Instance byte_countable : Countable byte :=
  inj_countable Byte.to_N Byte.of_N Byte.of_to_N.

(** [bytes.Compare]: lexicographic comparison of two byte slices,
    -1, 0 or +1. *)
Fixpoint bytesCompare (a b : list byte) : Z :=
  match a, b with
  | [], [] => 0
  | [], _ :: _ => -1
  | _ :: _, [] => 1
  | x :: a', y :: b' =>
      if (Byte.to_N x <? Byte.to_N y)%N then -1
      else if (Byte.to_N y <? Byte.to_N x)%N then 1
      else bytesCompare a' b'
  end.

(** Lexicographic order on raw bytes, as a relation. *)
Inductive lexLt : list byte → list byte → Prop :=
  | lexLt_nil y b : lexLt [] (y :: b)
  | lexLt_head x y a b : (Byte.to_N x < Byte.to_N y)%N → lexLt (x :: a) (y :: b)
  | lexLt_tail x a b : lexLt a b → lexLt (x :: a) (x :: b).

(** ** big.Int *)

(** [Cmp] of [big.Int]. *)
Definition Cmp (x y : Z) : Z :=
  match x ?= y with
  | Lt => -1
  | Eq => 0
  | Gt => 1
  end.

Definition bigZero : Z := 0.

(** ** Validator metadata and account sets *)

(** A BLS public key, as the four words the registry contract returns. *)
Definition PublicKey : Type := Z * Z * Z * Z.

Record ValidatorMetadata : Type := mkValidatorMetadata {
  Address : types.Address;
  BlsKey : option PublicKey;      (* nil pointer = None *)
  VotingPower : Z;
  IsActive : bool
}.

#[global] Instance ValidatorMetadata_eq_dec : EqDecision ValidatorMetadata.
Proof. solve_decision. Defined.

(** [AccountSet] is a slice of validators; the position is significant. *)
Abbreviation AccountSet := (list ValidatorMetadata).

(** Modelled from the spec: [Copy] of [ValidatorMetadata], declared outside
    this file. Section 4.2: a value copy of the entry with a deep copy of
    the voting power, so the same value. *)
Definition Copy (v : ValidatorMetadata) : ValidatorMetadata :=
  {| Address := Address v; BlsKey := BlsKey v;
     VotingPower := VotingPower v; IsActive := IsActive v |}.

(** ** Results of fallible code *)

(** Run-time panics of the Go code. *)
Inductive panic : Type :=
  | NilDereference
  | SliceBoundsOutOfRange.

(** Error values: the ones collaborators hand over, and the wrappers
    [fmt.Errorf("...: %w", err)] of this file. *)
Inductive error : Type :=
  | ErrExternal (code : N)
  | ErrGetFullValidatorSet (epoch : Z) (cause : error)
  | ErrRetrieveValidatorData (addr : types.Address) (cause : error).

Inductive outcome (A : Type) : Type :=
  | Return (a : A)
  | Fail (e : error)
  | Panic (p : panic).
Arguments Return {A} a.
Arguments Fail {A} e.
Arguments Panic {A} p.

(** ** The stake map *)

Abbreviation validatorStakeMap := (gmap types.Address ValidatorMetadata).

Definition newValidatorStakeMap (validatorSet : AccountSet) : validatorStakeMap :=
  foldl (λ stakeMap v, <[Address v := Copy v]> stakeMap) ∅ validatorSet.

Definition addStake (sc : validatorStakeMap) (address : types.Address) (amount : Z)
  : validatorStakeMap :=
  match sc !! address with
  | Some metadata =>
      let vp := VotingPower metadata + amount in
      <[address := {| Address := Address metadata; BlsKey := BlsKey metadata;
                      VotingPower := vp;
                      IsActive := 0 <? Cmp vp bigZero |}]> sc
  | None =>
      <[address := {| Address := address; BlsKey := None;
                      VotingPower := amount;
                      IsActive := true |}]> sc
  end.

(** [stakeData] is nil when the address is absent, and the next
    statement dereferences it. *)
Definition removeStake (sc : validatorStakeMap) (address : types.Address) (amount : Z)
  : outcome validatorStakeMap :=
  match sc !! address with
  | Some stakeData =>
      let vp := VotingPower stakeData - amount in
      Return (<[address := {| Address := Address stakeData;
                              BlsKey := BlsKey stakeData;
                              VotingPower := vp;
                              IsActive := 0 <? Cmp vp bigZero |}]> sc)
  | None => Panic NilDereference
  end.

(** The comparison function handed to [sort.Slice]. *)
Definition less (v1 v2 : ValidatorMetadata) : bool :=
  match Cmp (VotingPower v1) (VotingPower v2) with
  | 1 => true
  | 0 => bytesCompare (Address v1) (Address v2) <? 0
  | _ => false
  end.

(** [sort.Slice]: an insertion sort stands for it; [sortSlice_unique]
    below shows that every sort gives the same slice on the entries of a
    stake map. *)
Fixpoint insertSorted {A} (lt : A → A → bool) (x : A) (l : list A) : list A :=
  match l with
  | [] => [x]
  | y :: l' => if lt y x then y :: insertSorted lt x l' else x :: y :: l'
  end.

Definition sortSlice {A} (lt : A → A → bool) (l : list A) : list A :=
  foldr (insertSorted lt) [] l.

(** Go leaves the order of [range] over a map unspecified: an iteration
    order is any function listing the entries of the map once each. *)
Definition RangeOrder
  (rng : validatorStakeMap → list (types.Address * ValidatorMetadata)) : Prop :=
  ∀ m, rng m ≡ₚ map_to_list m.

Definition getActiveValidators
  (rangeOver : validatorStakeMap → list (types.Address * ValidatorMetadata))
  (sc : validatorStakeMap) (maxValidatorSetSize : Z)
  : outcome (list ValidatorMetadata) :=
  let activeValidators :=
    filter (λ v, 0 < Cmp (VotingPower v) bigZero) (rangeOver sc).*2 in
  let activeValidators := sortSlice less activeValidators in
  if decide (Z.of_nat (length activeValidators) ≤ maxValidatorSetSize)
  then Return activeValidators
  else if decide (maxValidatorSetSize < 0)
       then Panic SliceBoundsOutOfRange
       else Return (take (Z.to_nat maxValidatorSetSize) activeValidators).

(** The entries of a stake map are filed under their own address. *)
Definition keyed (sc : validatorStakeMap) : Prop :=
  ∀ a v, sc !! a = Some v → Address v = a.

(** ** Collaborators *)

(** The removal bitmap of package [bitmap], whose source is not part of
    this development. Sections 3 and 9 of the design describe it as a
    growable bit vector keyed by position; a natural number read in binary
    is one. *)
Module bitmap.
Abbreviation Bitmap := N.

(** Modelled from the spec: the empty bitmap [Bitmap{}], no position
    marked. *)
Definition empty : Bitmap := 0%N.

(** Modelled from the spec: [Set] of [Bitmap] marks position [idx]; the
    vector grows as needed. *)
Definition Set_ (b : Bitmap) (idx : N) : Bitmap := N.setbit b idx.

(** Modelled from the spec: [IsSet] of [Bitmap] tells whether position
    [idx] is marked. *)
Definition IsSet (b : Bitmap) (idx : N) : bool := N.testbit b idx.
End bitmap.

Record ValidatorSetDelta : Type := mkValidatorSetDelta {
  Added : AccountSet;
  Updated : AccountSet;
  Removed : bitmap.Bitmap
}.

(** Modelled from the spec: the last step of [ApplyDelta] (section 6),
    overwrite the entries matching an updated validator by address. *)
Definition overwrite (u : ValidatorMetadata) (validators : AccountSet) : AccountSet :=
  (λ v, if decide (Address v = Address u) then u else v) <$> validators.

(** Modelled from the spec: the first step of [ApplyDelta] (section 6),
    remove the entries at the marked bitmap positions; [i] is the position
    of the head of [validators] in the previous committee. *)
Fixpoint removeMarked (removed : bitmap.Bitmap) (i : N) (validators : AccountSet)
  : AccountSet :=
  match validators with
  | [] => []
  | v :: rest =>
      if bitmap.IsSet removed i then removeMarked removed (i + 1)%N rest
      else v :: removeMarked removed (i + 1)%N rest
  end.

(** Modelled from the spec: [ApplyDelta] of [AccountSet], whose source is
    not part of this development. Section 6: remove entries at marked
    bitmap positions from the previous committee, then append [Added], then
    overwrite entries matching [Updated] by address. The rule has no failing
    case. *)
Definition ApplyDelta (accs : AccountSet) (delta : ValidatorSetDelta)
  : error + AccountSet :=
  let validators := removeMarked (Removed delta) 0%N accs in
  let validators := validators ++ Added delta in
  inr (foldl (λ vs u, overwrite u vs) validators (Updated delta)).

(** Modelled from the spec: the Full Validator Set Store (sections 4.4 and
    6), whose source is not part of this development: a snapshot that is
    loaded and replaced wholesale, and I/O faults (section 7) that either
    operation may report. *)
Record StakeStore : Type := mkStakeStore {
  snapshot : AccountSet;
  loadFault : option error;
  saveFault : option error
}.

(** What the code acts on: the store, and the calls made so far to the
    validator registry through the root-chain relayer. *)
Record World : Type := mkWorld {
  store : StakeStore;
  registryCalls : list types.Address
}.

(** Receipts and logs of package [types], as far as this file reads them. *)
Inductive ReceiptStatus : Type := ReceiptFailed | ReceiptSuccess.
#[global] Instance ReceiptStatus_eq_dec : EqDecision ReceiptStatus.
Proof. solve_decision. Defined.

Record Log : Type := mkLog {
  Log_Address : types.Address;
  Topics : list (list byte);
  Data : list byte
}.

Record Receipt : Type := mkReceipt {
  Status : option ReceiptStatus;     (* nil pointer = None *)
  Logs : list Log
}.

Record TransferEvent : Type := mkTransferEvent {
  From : types.Address;
  To : types.Address;
  Value : Z
}.

Definition ZeroAddress : types.Address := replicate 20 Byte.x00.

(** Modelled from the spec: [IsStake] of package [contractsapi] (section
    3): a stake event is a mint, its sender is the zero address. *)
Definition IsStake (t : TransferEvent) : bool := bool_decide (From t = ZeroAddress).

(** Modelled from the spec: [IsUnstake] of package [contractsapi] (section
    3): an unstake event is a burn, its receiver is the zero address. *)
Definition IsUnstake (t : TransferEvent) : bool := bool_decide (To t = ZeroAddress).

Record PostEpochRequest : Type := mkPostEpochRequest {
  NewEpochID : Z;
  ValidatorSet : AccountSet
}.

Record PostBlockRequest : Type := mkPostBlockRequest {
  Receipts : list Receipt;
  Epoch : Z
}.

(** ** The stake manager *)

(** The fields of [stakeManager] the code reads. [rootChainRelayer] stands
    for the read-only call to the supernet manager contract together with
    the decoding of its answer: the BLS key of the address, or the error of
    the first step that failed. *)
Record stakeManager : Type := mkStakeManager {
  loggerIsDebug : bool;
  rootChainRelayer : types.Address → error + PublicKey;
  validatorSetContract : types.Address;
  maxValidatorSetSize : Z
}.

(** State and errors threaded through the methods. *)
Definition M (A : Type) : Type := World → outcome A * World.

#[global] Instance M_ret : MRet M := λ A a w, (Return a, w).
#[global] Instance M_bind : MBind M := λ A B k m w,
  match m w with
  | (Return a, w') => k a w'
  | (Fail e, w') => (Fail e, w')
  | (Panic p, w') => (Panic p, w')
  end.
Definition lift {A} (o : outcome A) : M A := λ w, (o, w).

(** Modelled from the spec: [getFullValidatorSet] of the stake store
    (section 6, [LoadFullSet]): the snapshot, or the store's fault. *)
Definition getFullValidatorSet : M AccountSet :=
  λ w, match loadFault (store w) with
       | Some err => (Fail err, w)
       | None => (Return (snapshot (store w)), w)
       end.

(** Modelled from the spec: [insertFullValidatorSet] of the stake store
    (section 6, [SaveFullSet]): the snapshot is replaced wholesale, or the
    store's fault is returned and nothing is written. *)
Definition insertFullValidatorSet (fullValidatorSet : AccountSet) : M unit :=
  λ w, match saveFault (store w) with
       | Some err => (Fail err, w)
       | None =>
           (Return tt,
            {| store := {| snapshot := fullValidatorSet;
                           loadFault := loadFault (store w);
                           saveFault := saveFault (store w) |};
               registryCalls := registryCalls w |})
       end.

Definition getNewValidatorInfo (s : stakeManager) (address : types.Address) (stake : Z)
  : M ValidatorMetadata :=
  λ w,
    let w' := {| store := store w;
                 registryCalls := registryCalls w ++ [address] |} in
    match rootChainRelayer s address with
    | inl err => (Fail err, w')
    | inr pubKey =>
        (Return {| Address := address; BlsKey := Some pubKey;
                   VotingPower := stake; IsActive := true |}, w')
    end.

Definition PostEpoch (s : stakeManager) (req : PostEpochRequest) : M unit :=
  if decide (NewEpochID req ≠ 1) then mret tt
  else insertFullValidatorSet (ValidatorSet req).

Section Methods.

(** [ParseLog] of [contractsapi.TransferEvent]: the event as filled in,
    whether the log matches the event signature, and the decoding error. *)
Variable ParseLog : Log → TransferEvent * bool * option error.

(** The order in which [range] walks a stake map. *)
Variable rangeOver : validatorStakeMap → list (types.Address * ValidatorMetadata).

(** [convertLog], declared outside this file, turns a [types.Log] into the
    [ethgo.Log] with the same address, topics and data. *)
Definition convertLog (log : Log) : Log :=
  {| Log_Address := Log_Address log; Topics := Topics log; Data := Data log |}.

(** The inner loop of [getTransferEventsFromReceipts], over the logs of
    one receipt. *)
Fixpoint scanLogs (s : stakeManager) (logs : list Log) (events : list TransferEvent)
  : outcome (list TransferEvent) :=
  match logs with
  | [] => Return events
  | log :: logs' =>
      if decide (Log_Address log ≠ validatorSetContract s)
      then scanLogs s logs' events
      else
        match ParseLog (convertLog log) with
        | (_, _, Some err) => Fail err
        | (_, false, None) => scanLogs s logs' events
        | (transferEvent, true, None) => scanLogs s logs' (events ++ [transferEvent])
        end
  end.

(** The outer loop, over the receipts. *)
Fixpoint scanReceipts (s : stakeManager) (receipts : list Receipt)
  (events : list TransferEvent) : outcome (list TransferEvent) :=
  match receipts with
  | [] => Return events
  | receipt :: receipts' =>
      if decide (Status receipt = None ∨ Status receipt ≠ Some ReceiptSuccess)
      then scanReceipts s receipts' events
      else
        match scanLogs s (Logs receipt) events with
        | Return events' => scanReceipts s receipts' events'
        | Fail err => Fail err
        | Panic p => Panic p
        end
  end.

Definition getTransferEventsFromReceipts (s : stakeManager) (receipts : list Receipt)
  : outcome (list TransferEvent) :=
  scanReceipts s receipts [].

(** The loop of [PostBlock] that applies the events to the stake map. *)
Fixpoint applyEvents (stakeMap : validatorStakeMap) (events : list TransferEvent)
  : outcome validatorStakeMap :=
  match events with
  | [] => Return stakeMap
  | event :: events' =>
      if IsStake event
      then applyEvents (addStake stakeMap (To event) (Value event)) events'
      else if IsUnstake event
      then match removeStake stakeMap (From event) (Value event) with
           | Return stakeMap' => applyEvents stakeMap' events'
           | Fail err => Fail err
           | Panic p => Panic p
           end
      else applyEvents stakeMap events'
  end.

(** The loop of [PostBlock] that resolves the entries without a key and
    builds the new full validator set. A failed lookup is logged and the
    entry kept. *)
Fixpoint resolveEntries (s : stakeManager)
  (entries : list (types.Address * ValidatorMetadata))
  (newFullValidatorSet : AccountSet) : M AccountSet :=
  match entries with
  | [] => mret newFullValidatorSet
  | (addr, data) :: entries' =>
      λ w,
        let '(data, w) :=
          match BlsKey data with
          | None =>
              match getNewValidatorInfo s addr (VotingPower data) w with
              | (Return newValidatorMetaData, w') => (newValidatorMetaData, w')
              | (_, w') => (data, w')
              end
          | Some _ => (data, w)
          end in
        let data := {| Address := Address data; BlsKey := BlsKey data;
                       VotingPower := VotingPower data;
                       IsActive := 0 <? Cmp (VotingPower data) bigZero |} in
        resolveEntries s entries' (newFullValidatorSet ++ [data]) w
  end.

Definition PostBlock (s : stakeManager) (req : PostBlockRequest) : M unit :=
  events ← lift (getTransferEventsFromReceipts s (Receipts req));
  if decide (length events = 0%nat) then mret tt
  else
    fullValidatorSet ← getFullValidatorSet;
    let stakeMap := newValidatorStakeMap fullValidatorSet in
    stakeMap ← lift (applyEvents stakeMap events);
    newFullValidatorSet ← resolveEntries s (rangeOver stakeMap) [];
    insertFullValidatorSet newFullValidatorSet.

(** The first loop of [UpdateValidatorSet]: index the old validator set by
    address and mark the positions that leave the set. *)
Fixpoint indexOld (addressesSet : gset types.Address) (i : N)
  (oldValidatorSet : AccountSet)
  (oldActiveMap : gmap types.Address ValidatorMetadata)
  (removedBitmap : bitmap.Bitmap)
  : gmap types.Address ValidatorMetadata * bitmap.Bitmap :=
  match oldValidatorSet with
  | [] => (oldActiveMap, removedBitmap)
  | validator :: rest =>
      let oldActiveMap := <[Address validator := validator]> oldActiveMap in
      let removedBitmap :=
        if decide (Address validator ∈ addressesSet) then removedBitmap
        else bitmap.Set_ removedBitmap i in
      indexOld addressesSet (i + 1)%N rest oldActiveMap removedBitmap
  end.

(** The second loop: sort the new validator set into updated and added
    validators. A failed lookup of a new validator ends the method. *)
Fixpoint classify (s : stakeManager)
  (oldActiveMap : gmap types.Address ValidatorMetadata)
  (newValidatorSet : list ValidatorMetadata)
  (updatedValidators addedValidators : AccountSet) : M (AccountSet * AccountSet) :=
  match newValidatorSet with
  | [] => mret (updatedValidators, addedValidators)
  | newValidator :: rest =>
      match oldActiveMap !! Address newValidator with
      | Some oldValidator =>
          if decide (Cmp (VotingPower oldValidator) (VotingPower newValidator) ≠ 0)
          then classify s oldActiveMap rest
                 (updatedValidators ++ [newValidator]) addedValidators
          else classify s oldActiveMap rest updatedValidators addedValidators
      | None =>
          match BlsKey newValidator with
          | None =>
              λ w,
                match getNewValidatorInfo s (Address newValidator)
                        (VotingPower newValidator) w with
                | (Return validatorData, w') =>
                    classify s oldActiveMap rest updatedValidators
                      (addedValidators ++ [validatorData]) w'
                | (Fail err, w') =>
                    (Fail (ErrRetrieveValidatorData (Address newValidator) err), w')
                | (Panic p, w') => (Panic p, w')
                end
          | Some _ =>
              classify s oldActiveMap rest updatedValidators
                (addedValidators ++ [newValidator])
          end
      end
  end.

Definition UpdateValidatorSet (s : stakeManager) (epoch : Z)
  (oldValidatorSet : AccountSet) : M ValidatorSetDelta :=
  λ w,
    match getFullValidatorSet w with
    | (Fail err, w') => (Fail (ErrGetFullValidatorSet epoch err), w')
    | (Panic p, w') => (Panic p, w')
    | (Return fullValidatorSet, w') =>
        (stakeMap ← mret (newValidatorStakeMap fullValidatorSet);
         newValidatorSet ←
           lift (getActiveValidators rangeOver stakeMap (maxValidatorSetSize s));
         let addressesSet : gset types.Address :=
           list_to_set (Address <$> newValidatorSet) in
         let '(oldActiveMap, removedBitmap) :=
           indexOld addressesSet 0%N oldValidatorSet ∅ bitmap.empty in
         '(updatedValidators, addedValidators) ←
           classify s oldActiveMap newValidatorSet [] [];
         let delta := {| Added := addedValidators;
                         Updated := updatedValidators;
                         Removed := removedBitmap |} in
         if loggerIsDebug s
         then match ApplyDelta (Copy <$> oldValidatorSet) delta with
              | inl err => lift (Fail err)
              | inr _ => mret delta
              end
         else mret delta) w'
    end.

End Methods.

(** ** Concrete inputs *)

Module Sample.

Definition addr (b : byte) : types.Address := replicate 19 Byte.x00 ++ [b].
Definition A : types.Address := addr Byte.x0a.
Definition B : types.Address := addr Byte.x0b.
Definition C : types.Address := addr Byte.x0c.
Definition D : types.Address := addr Byte.x0d.
Definition E : types.Address := addr Byte.x0e.
Definition F : types.Address := addr Byte.x0f.
Definition contract : types.Address := addr Byte.xc0.

Definition key (n : Z) : PublicKey := (n, n + 1, n + 2, n + 3).

Definition validator (a : types.Address) (k : option PublicKey) (power : Z)
  : ValidatorMetadata :=
  {| Address := a; BlsKey := k; VotingPower := power;
     IsActive := bool_decide (0 < power) |}.

(** The registry knows the key of [C] only. *)
Definition manager : stakeManager :=
  {| loggerIsDebug := true;
     rootChainRelayer :=
       λ a, if decide (a = C) then inr (key 30) else inl (ErrExternal 404);
     validatorSetContract := contract;
     maxValidatorSetSize := 3 |}.

Definition fullSet : AccountSet :=
  [validator A (Some (key 10)) 100; validator B (Some (key 20)) 50;
   validator C None 75; validator D (Some (key 40)) 0;
   validator E (Some (key 50)) 60].

Definition committee : AccountSet :=
  [validator A (Some (key 10)) 90; validator B (Some (key 20)) 50;
   validator E (Some (key 50)) 60].

Definition world : World :=
  {| store := {| snapshot := fullSet; loadFault := None; saveFault := None |};
     registryCalls := [] |}.

Definition nextCommittee : AccountSet :=
  [validator A (Some (key 10)) 100; validator C None 75;
   validator E (Some (key 50)) 60].

Definition delta : ValidatorSetDelta :=
  {| Added := [validator C (Some (key 30)) 75];
     Updated := [validator A (Some (key 10)) 100];
     Removed := 2%N |}.

Definition worldAfter : World :=
  {| store := store world; registryCalls := [C] |}.

(** The same store with one more staker, [F], whom the registry does not
    know. *)
Definition worldF : World :=
  {| store := {| snapshot := fullSet ++ [validator F None 80];
                 loadFault := None; saveFault := None |};
     registryCalls := [] |}.

Definition nextCommitteeF : AccountSet :=
  [validator A (Some (key 10)) 100; validator F None 80; validator C None 75].

(** A committee that grows: every validator has its key, [C] enters
    between [A] and [B]. *)
Definition fullSet3 : AccountSet :=
  [validator A (Some (key 10)) 100; validator B (Some (key 20)) 50;
   validator C (Some (key 30)) 75].


Definition world3 : World :=
  {| store := {| snapshot := fullSet3; loadFault := None; saveFault := None |};
     registryCalls := [] |}.

Definition nextCommittee3 : AccountSet :=
  [validator A (Some (key 10)) 100; validator C (Some (key 30)) 75;
   validator B (Some (key 20)) 50].



(** A block with one stake event: 30 minted to [F], which the registry does
    not know. The log carries the receiver in its data; a log without data
    matches the signature and fails to decode. *)
Definition parseLog (log : Log) : TransferEvent * bool * option error :=
  match Data log with
  | [] => ({| From := ZeroAddress; To := ZeroAddress; Value := 0 |}, true,
           Some (ErrExternal 22))
  | [b] => ({| From := ZeroAddress; To := addr b; Value := 30 |}, true, None)
  | _ => ({| From := ZeroAddress; To := ZeroAddress; Value := 0 |}, false, None)
  end.

(** A receipt whose log of the validator-set contract does not decode. *)
Definition failedReceipt : Receipt :=
  {| Status := Some ReceiptFailed;
     Logs := [{| Log_Address := contract; Topics := []; Data := [] |}] |}.

Definition block : PostBlockRequest :=
  {| Receipts :=
       [{| Status := Some ReceiptSuccess;
           Logs := [{| Log_Address := contract; Topics := [];
                       Data := [Byte.x0f] |}] |}];
     Epoch := 1 |}.

Definition stakeEvents : list TransferEvent :=
  [{| From := ZeroAddress; To := F; Value := 30 |}].

Definition stakeMapAfter : validatorStakeMap :=
  addStake (newValidatorStakeMap fullSet) F 30.

(** Two ways of walking a stake map. *)
Definition forwards (m : validatorStakeMap)
  : list (types.Address * ValidatorMetadata) :=
  map_to_list m.
Definition backwards (m : validatorStakeMap)
  : list (types.Address * ValidatorMetadata) :=
  reverse (map_to_list m).

End Sample.

(** ** Specification-side notions *)

(** The committee order in the words of the design: strictly descending
    by voting power, ties broken by ascending byte order of the address. *)
Definition committeeBefore (v1 v2 : ValidatorMetadata) : Prop :=
  VotingPower v2 < VotingPower v1
  ∨ (VotingPower v1 = VotingPower v2 ∧ lexLt (Address v1) (Address v2)).

(** The slice [getActiveValidators] sorts and then cuts. *)
Definition activeSorted
  (rng : validatorStakeMap → list (types.Address * ValidatorMetadata))
  (sc : validatorStakeMap) : list ValidatorMetadata :=
  sortSlice less (filter (λ v, 0 < Cmp (VotingPower v) bigZero) (rng sc).*2).

(** A validator of the new set that the old set does not hold. *)
Definition isNewIn (m : gmap types.Address ValidatorMetadata)
  (v : ValidatorMetadata) : Prop :=
  m !! Address v = None.

(** A validator of the new set that the old set holds with another voting
    power. *)
Definition changedIn (m : gmap types.Address ValidatorMetadata)
  (v : ValidatorMetadata) : Prop :=
  match m !! Address v with
  | Some o => VotingPower o ≠ VotingPower v
  | None => False
  end.

(** A new validator whose key has to be fetched from the registry. *)
Definition needsLookup (m : gmap types.Address ValidatorMetadata)
  (v : ValidatorMetadata) : Prop :=
  m !! Address v = None ∧ BlsKey v = None.

#[global] Instance isNewIn_dec m v : Decision (isNewIn m v).
Proof. unfold isNewIn. apply _. Defined.
#[global] Instance changedIn_dec m v : Decision (changedIn m v).
Proof. unfold changedIn. destruct (m !! Address v); apply _. Defined.
#[global] Instance needsLookup_dec m v : Decision (needsLookup m v).
Proof. unfold needsLookup. apply _. Defined.

(** The record of a new validator as it enters [Added]: itself when it has
    a key, the answer of the registry when it has none. *)
Definition resolved (s : stakeManager) (v : ValidatorMetadata) : ValidatorMetadata :=
  match BlsKey v with
  | Some _ => v
  | None =>
      match rootChainRelayer s (Address v) with
      | inr pubKey => {| Address := Address v; BlsKey := Some pubKey;
                         VotingPower := VotingPower v; IsActive := true |}
      | inl _ => v
      end
  end.

(** The extraction of transfer events in the words of the design: the
    logs of the receipts that succeeded, emitted by the validator-set
    contract, in receipt order and then log order. *)
Definition succeeded (r : Receipt) : Prop := Status r = Some ReceiptSuccess.

Definition candidateLogs (s : stakeManager) (receipts : list Receipt) : list Log :=
  r ← filter succeeded receipts;
  filter (λ log, Log_Address log = validatorSetContract s) (Logs r).

Definition parseError (ParseLog : Log → TransferEvent * bool * option error)
  (log : Log) : option error :=
  (ParseLog log).2.

Definition parsedEvent (ParseLog : Log → TransferEvent * bool * option error)
  (log : Log) : option TransferEvent :=
  if (ParseLog log).1.2 then Some (ParseLog log).1.1 else None.

(** An entry of the stake map as [PostBlock] writes it to the new full
    validator set. *)
Definition settled (s : stakeManager) (entry : types.Address * ValidatorMetadata)
  : ValidatorMetadata :=
  let data :=
    match BlsKey entry.2, rootChainRelayer s entry.1 with
    | None, inr pubKey =>
        {| Address := entry.1; BlsKey := Some pubKey;
           VotingPower := VotingPower entry.2; IsActive := true |}
    | _, _ => entry.2
    end in
  {| Address := Address data; BlsKey := BlsKey data;
     VotingPower := VotingPower data;
     IsActive := bool_decide (0 < VotingPower data) |}.

(** What the committee order and the delta are about: the address of a
    validator and its voting power. *)
Definition stakeOf (v : ValidatorMetadata) : types.Address * Z :=
  (Address v, VotingPower v).

(** ** Stake accounting *)

(** The amount minted to an address by a batch of events, and the amount
    burned from it, as [PostBlock] classifies the events: an event that is
    a stake is not looked at as an unstake. *)
Definition stakedTo (a : types.Address) (events : list TransferEvent) : Z :=
  foldr (λ event acc,
           (if decide (IsStake event = true ∧ To event = a)
            then Value event else 0) + acc) 0 events.

Definition unstakedFrom (a : types.Address) (events : list TransferEvent) : Z :=
  foldr (λ event acc,
           (if decide (IsStake event = false ∧ IsUnstake event = true
                       ∧ From event = a)
            then Value event else 0) + acc) 0 events.

(** The voting power a stake map gives an address, zero when it has no
    entry. *)
Definition powerOf (sc : validatorStakeMap) (a : types.Address) : Z :=
  from_option VotingPower 0 (sc !! a).

(** ** The account-abstraction relayer service *)

(** Package [service]: [AARelayerService] and its helpers. *)
Module service.

(** Package [ethgo], as far as this file reads it. *)
Module ethgo.
Record Log : Type := mkLog {
  Address : list byte;
  Topics : list (list byte);
  Data : list byte
}.

Record Receipt : Type := mkReceipt {
  TransactionHash : list byte;
  BlockHash : list byte;
  BlockNumber : Z;
  GasUsed : Z;
  Logs : list Log
}.

Record Transaction : Type := mkTransaction {
  From : list byte;
  Input : option (list byte)       (* nil slice = None *)
}.
End ethgo.

(** Error values. A collaborator's error is known by its message
    ([Error()]) and by whether [errors.As] finds a [net.Error] in it; the
    others are the three [fmt.Errorf] wrappers of [executeJob]. *)
Inductive error : Type :=
  | External (msg : string) (isNet : bool)
  | ErrNonceAndUpdate (id : string) (cause : error) (updateMsg : string)
  | ErrNonce (id : string) (cause : error)
  | ErrUpdate (id : string) (cause : error).

(** [err.Error()]. *)
Fixpoint Error_ (err : error) : string :=
  match err with
  | External msg _ => msg
  | ErrNonceAndUpdate id cause updateMsg =>
      "error while getting nonce for state tx = " +:+ id
      +:+ ", err = " +:+ Error_ cause +:+ ", update error = " +:+ updateMsg
  | ErrNonce id cause =>
      "error while getting nonce for state tx = " +:+ id
      +:+ ", err = " +:+ Error_ cause
  | ErrUpdate id cause =>
      "error while updating state tx = " +:+ id +:+ ", err = " +:+ Error_ cause
  end.

(** [errors.As(err, &netErr)]: a wrapper made with [%w] is searched through
    its cause. *)
Fixpoint isNetError (err : error) : bool :=
  match err with
  | External _ isNet => isNet
  | ErrNonceAndUpdate _ cause _ => isNetError cause
  | ErrNonce _ cause => isNetError cause
  | ErrUpdate _ cause => isNetError cause
  end.

(** The status of a state transaction, declared outside this file: the
    three values this file assigns, and any other. *)
Inductive TxStatus : Type :=
  | StatusQueued
  | StatusCompleted
  | StatusFailed
  | StatusOther (name : string).

Record Log : Type := mkLog {
  Address : list byte;
  Data : list byte;
  Topics : list (list byte)
}.

Record Mined_ : Type := mkMined {
  BlockHash : list byte;
  BlockNumber : Z;
  TxnHash : list byte;
  GasUsed : Z;
  Logs : list Log
}.

(** [AAStateTransaction], declared outside this file: the fields this
    file reads or writes, and [Tx] for the payload it leaves alone. *)
Record AAStateTransaction : Type := mkAAStateTransaction {
  ID : string;
  Tx : list byte;
  Error : option string;          (* nil pointer = None *)
  Status : TxStatus;
  Gas : Z;
  Mined : option Mined_           (* nil pointer = None *)
}.

(** [AATxSender], an interface: what its two methods answer. *)
Record AATxSender : Type := mkAATxSender {
  SendTransaction : ethgo.Transaction → list byte → error + list byte;
  WaitForReceipt : list byte → Z → Z → error + ethgo.Receipt
}.

(** [AATxState], an interface: what [Update] answers for a transaction. *)
Record AATxState : Type := mkAATxState {
  Update : AAStateTransaction → option error
}.

(** The service. The pool is an interface whose calls are recorded in the
    world below; durations are in nanoseconds. *)
Record AARelayerService : Type := mkAARelayerService {
  state : AATxState;
  txSender : AATxSender;
  key : list byte;                (* [key.Address()] *)
  pullTime : Z;
  receiptDelay : Z;
  numRetries : Z
}.

(** What [executeJob] acts on: the transactions pushed to the pool and the
    transactions handed to [state.Update], each as it was at the call. *)
Record World : Type := mkWorld {
  pushed : list AAStateTransaction;
  updated : list AAStateTransaction
}.

Definition Millisecond : Z := 1000000.

Definition TxRelayerOption : Type := AARelayerService → AARelayerService.

Definition WithPullTime (pullTime : Z) : TxRelayerOption :=
  λ t, {| state := state t; txSender := txSender t; key := key t;
          pullTime := pullTime; receiptDelay := receiptDelay t;
          numRetries := numRetries t |}.

Definition WithReceiptDelay (receiptDelay : Z) : TxRelayerOption :=
  λ t, {| state := state t; txSender := txSender t; key := key t;
          pullTime := pullTime t; receiptDelay := receiptDelay;
          numRetries := numRetries t |}.

Definition WithNumRetries (numRetries : Z) : TxRelayerOption :=
  λ t, {| state := state t; txSender := txSender t; key := key t;
          pullTime := pullTime t; receiptDelay := receiptDelay t;
          numRetries := numRetries |}.

Definition NewAARelayerService (txSender : AATxSender) (state : AATxState)
  (key : list byte) (opts : list TxRelayerOption) : AARelayerService :=
  let service := {| state := state; txSender := txSender; key := key;
                    pullTime := Millisecond * 5000;
                    receiptDelay := Millisecond * 500;
                    numRetries := 100 |} in
  foldl (λ service opt, opt service) service opts.

Definition makeEthgoTransaction (rs : AARelayerService) (stateTx : AAStateTransaction)
  : ethgo.Transaction :=
  {| ethgo.From := key rs; ethgo.Input := None |}.

(** The zero values [make] fills a slice with. *)
Definition zeroHash : list byte := replicate 32 Byte.x00.
Definition zeroLog : Log :=
  {| Address := replicate 20 Byte.x00; Data := []; Topics := [] |}.

(** The inner loop of [populateStateTx]: [topics[j] = types.Hash(topic)]. *)
Fixpoint fillTopics (j : nat) (source : list (list byte)) (topics : list (list byte))
  : list (list byte) :=
  match source with
  | [] => topics
  | topic :: rest => fillTopics (S j) rest (<[j := topic]> topics)
  end.

(** The outer loop: [stateTx.Mined.Logs[i] = Log{...}]. *)
Fixpoint fillLogs (i : nat) (source : list ethgo.Log) (logs : list Log) : list Log :=
  match source with
  | [] => logs
  | log :: rest =>
      let topics :=
        fillTopics 0 (ethgo.Topics log)
          (replicate (length (ethgo.Topics log)) zeroHash) in
      fillLogs (S i) rest
        (<[i := {| Address := ethgo.Address log; Data := ethgo.Data log;
                   Topics := topics |}]> logs)
  end.

Definition populateStateTx (stateTx : AAStateTransaction) (receipt : ethgo.Receipt)
  : AAStateTransaction :=
  {| ID := ID stateTx; Tx := Tx stateTx; Error := Error stateTx;
     Status := Status stateTx;
     Gas := ethgo.GasUsed receipt;
     Mined :=
       Some {| BlockHash := ethgo.BlockHash receipt;
               BlockNumber := ethgo.BlockNumber receipt;
               TxnHash := ethgo.TransactionHash receipt;
               GasUsed := ethgo.GasUsed receipt;
               Logs := fillLogs 0 (ethgo.Logs receipt)
                         (replicate (length (ethgo.Logs receipt)) zeroLog) |} |}.

Definition setError (stateTx : AAStateTransaction) (errstr : string)
  : AAStateTransaction :=
  {| ID := ID stateTx; Tx := Tx stateTx; Error := Some errstr;
     Status := Status stateTx; Gas := Gas stateTx; Mined := Mined stateTx |}.

Definition setStatus (stateTx : AAStateTransaction) (status : TxStatus)
  : AAStateTransaction :=
  {| ID := ID stateTx; Tx := Tx stateTx; Error := Error stateTx;
     Status := status; Gas := Gas stateTx; Mined := Mined stateTx |}.

Definition doPush (stateTx : AAStateTransaction) (w : World) : World :=
  {| pushed := pushed w ++ [stateTx]; updated := updated w |}.

Definition doUpdate (stateTx : AAStateTransaction) (w : World) : World :=
  {| pushed := pushed w; updated := updated w ++ [stateTx] |}.

(** [executeJob]: the error returned (nil = [None]), the state transaction
    as the method leaves it, and the world. [stateTx.Error] points to the
    local [errstr], so the assignment of the update error to [errstr]
    changes it too. *)
Definition executeJob (rs : AARelayerService) (stateTx : AAStateTransaction)
  (w : World) : option error * AAStateTransaction * World :=
  let tx := makeEthgoTransaction rs stateTx in
  match SendTransaction (txSender rs) tx (key rs) with
  | inl err =>
      if isNetError err then (Some err, stateTx, doPush stateTx w)
      else
        let errstr := Error_ err in
        let stateTx := setError stateTx errstr in
        let w := doUpdate stateTx w in
        match Update (state rs) stateTx with
        | Some errUpdate =>
            let errstr := Error_ errUpdate in
            let stateTx := setError stateTx errstr in
            (Some (ErrNonceAndUpdate (ID stateTx) err errstr), stateTx, w)
        | None => (Some (ErrNonce (ID stateTx) err), stateTx, w)
        end
  | inr hash =>
      let stateTx := setStatus stateTx StatusQueued in
      let w := doUpdate stateTx w in
      let stateTx :=
        match WaitForReceipt (txSender rs) hash (receiptDelay rs) (numRetries rs) with
        | inl err => setStatus (setError stateTx (Error_ err)) StatusFailed
        | inr recipt => populateStateTx (setStatus stateTx StatusCompleted) recipt
        end in
      let w := doUpdate stateTx w in
      match Update (state rs) stateTx with
      | Some err => (Some (ErrUpdate (ID stateTx) err), stateTx, w)
      | None => (None, stateTx, w)
      end
  end.

End service.

(** Concrete inputs for the relayer service. *)
Module ServiceSample.

Definition stateTx : service.AAStateTransaction :=
  {| service.ID := "tx-1"; service.Tx := [Byte.x01; Byte.x02];
     service.Error := Some "stale"; service.Status := service.StatusOther "pending";
     service.Gas := 0; service.Mined := None |}.

Definition receipt : service.ethgo.Receipt :=
  {| service.ethgo.TransactionHash := replicate 32 Byte.xaa;
     service.ethgo.BlockHash := replicate 32 Byte.xbb;
     service.ethgo.BlockNumber := 7;
     service.ethgo.GasUsed := 21000;
     service.ethgo.Logs :=
       [{| service.ethgo.Address := replicate 20 Byte.x11;
           service.ethgo.Topics := [replicate 32 Byte.x01; replicate 32 Byte.x02];
           service.ethgo.Data := [Byte.x0a] |};
        {| service.ethgo.Address := replicate 20 Byte.x22;
           service.ethgo.Topics := [];
           service.ethgo.Data := [] |}] |}.

(** A sender whose transactions are mined, and a state that stores. *)
Definition mining : service.AARelayerService :=
  service.NewAARelayerService
    {| service.SendTransaction := λ _ _, inr (replicate 32 Byte.xaa);
       service.WaitForReceipt := λ _ _ _, inr receipt |}
    {| service.Update := λ _, None |}
    (replicate 20 Byte.x0e) [].

(** A sender that is offline. *)
Definition offline : service.AARelayerService :=
  service.NewAARelayerService
    {| service.SendTransaction :=
         λ _ _, inl (service.External "connection refused" true);
       service.WaitForReceipt := λ _ _ _, inr receipt |}
    {| service.Update := λ _, None |}
    (replicate 20 Byte.x0e) [].

(** A sender that rejects the transaction, and a state that is closed. *)
Definition rejecting : service.AARelayerService :=
  service.NewAARelayerService
    {| service.SendTransaction := λ _ _, inl (service.External "nonce too low" false);
       service.WaitForReceipt := λ _ _ _, inr receipt |}
    {| service.Update := λ _, Some (service.External "database closed" false) |}
    (replicate 20 Byte.x0e) [].

Definition world : service.World :=
  {| service.pushed := []; service.updated := [] |}.

End ServiceSample.

(** More concrete inputs for the stake manager. *)
Module SampleMore.

(** A batch that stakes to the new address [F] twice and unstakes from
    [B] in between. *)
Definition batch : list TransferEvent :=
  [{| From := ZeroAddress; To := Sample.F; Value := 30 |};
   {| From := Sample.B; To := ZeroAddress; Value := 20 |};
   {| From := ZeroAddress; To := Sample.F; Value := 5 |}].

Definition stakeMapBefore : validatorStakeMap :=
  newValidatorStakeMap Sample.fullSet.

Definition stakeMapAfterBatch : validatorStakeMap :=
  <[Sample.F := {| Address := Sample.F; BlsKey := None; VotingPower := 35;
                   IsActive := true |}]>
    (<[Sample.B := Sample.validator Sample.B (Some (Sample.key 20)) 30]>
       stakeMapBefore).

(** A committee with [D], whose stake in the store is zero. *)
Definition committeeD : AccountSet :=
  [Sample.validator Sample.A (Some (Sample.key 10)) 100;
   Sample.validator Sample.D (Some (Sample.key 40)) 10].

Definition deltaD : ValidatorSetDelta :=
  {| Added := [Sample.validator Sample.C (Some (Sample.key 30)) 75;
               Sample.validator Sample.E (Some (Sample.key 50)) 60];
     Updated := [];
     Removed := 2%N |}.

(** A store that cannot be read or written, and a block without
    receipts. *)
Definition faultyWorld : World :=
  {| store := {| snapshot := []; loadFault := Some (ErrExternal 5);
                 saveFault := Some (ErrExternal 6) |};
     registryCalls := [Sample.A] |}.

Definition emptyBlock : PostBlockRequest := {| Receipts := []; Epoch := 2 |}.

End SampleMore.

(** * Properties *)

(** ** Comparison of big integers and of addresses *)

Lemma Cmp_pos x y : 0 < Cmp x y ↔ y < x.
Proof. unfold Cmp. destruct (Z.compare_spec x y); lia. Qed.

Lemma Cmp_zero x y : Cmp x y = 0 ↔ x = y.
Proof. unfold Cmp. destruct (Z.compare_spec x y); lia. Qed.

Lemma Cmp_one x y : Cmp x y = 1 ↔ y < x.
Proof. unfold Cmp. destruct (Z.compare_spec x y); lia. Qed.

Lemma Cmp_range x y : Cmp x y = -1 ∨ Cmp x y = 0 ∨ Cmp x y = 1.
Proof. unfold Cmp. destruct (x ?= y); auto. Qed.

Lemma Cmp_bigZero_ltb x : (0 <? Cmp x bigZero) = (0 <? x).
Proof.
  unfold bigZero. destruct (Z.ltb_spec 0 x) as [H|H].
  - apply Z.ltb_lt, Cmp_pos, H.
  - apply Z.ltb_ge. destruct (Z.lt_ge_cases 0 (Cmp x 0)) as [H'|H']; [|lia].
    apply (proj1 (Cmp_pos _ _)) in H'. lia.
Qed.

Lemma ltb_bool_decide x : (0 <? x) = bool_decide (0 < x).
Proof.
  destruct (Z.ltb_spec 0 x).
  - by rewrite bool_decide_eq_true_2.
  - rewrite bool_decide_eq_false_2; [done | lia].
Qed.

Lemma to_N_inj x y : Byte.to_N x = Byte.to_N y → x = y.
Proof.
  intros E. pose proof (Byte.of_to_N x) as Hx. rewrite E, Byte.of_to_N in Hx.
  congruence.
Qed.

Lemma bytesCompare_lt a b : bytesCompare a b < 0 ↔ lexLt a b.
Proof.
  revert b. induction a as [|x a IH]; intros [|y b]; simpl.
  - split; [lia | inversion 1].
  - split; [constructor | lia].
  - split; [lia | inversion 1].
  - destruct (N.ltb_spec (Byte.to_N x) (Byte.to_N y)) as [Hxy|Hxy].
    { split; [intros _; by constructor | lia]. }
    destruct (N.ltb_spec (Byte.to_N y) (Byte.to_N x)) as [Hyx|Hyx].
    { split; [lia|]. inversion 1; subst; lia. }
    assert (x = y) as -> by (apply to_N_inj; lia).
    rewrite IH. split; [by constructor|]. inversion 1; subst; [lia | done].
Qed.

Lemma lexLt_irrefl a : ¬ lexLt a a.
Proof. induction a; inversion 1; subst; [lia | auto]. Qed.

Lemma lexLt_trans a b c : lexLt a b → lexLt b c → lexLt a c.
Proof.
  intros Hab. revert c. induction Hab; inversion 1; subst;
    try (constructor; done); try (constructor; lia).
  apply lexLt_tail. auto.
Qed.

Lemma lexLt_trichotomy a b : a = b ∨ lexLt a b ∨ lexLt b a.
Proof.
  revert b. induction a as [|x a IH]; intros [|y b].
  - by left.
  - right; left; constructor.
  - right; right; constructor.
  - destruct (N.lt_trichotomy (Byte.to_N x) (Byte.to_N y)) as [H|[H|H]].
    + right; left; by constructor.
    + apply to_N_inj in H as ->.
      destruct (IH b) as [->|[H|H]]; [by left | right; left | right; right];
        by constructor.
    + right; right; by constructor.
Qed.

Lemma less_committeeBefore v1 v2 : less v1 v2 = true ↔ committeeBefore v1 v2.
Proof.
  unfold less, committeeBefore.
  destruct (Cmp_range (VotingPower v1) (VotingPower v2)) as [E|[E|E]]; rewrite E.
  - split; [done|]. intros [H|[H _]].
    + apply (proj2 (Cmp_one _ _)) in H. lia.
    + apply (proj2 (Cmp_zero _ _)) in H. lia.
  - apply (proj1 (Cmp_zero _ _)) in E. rewrite Z.ltb_lt, bytesCompare_lt. split.
    + intros H. by right.
    + intros [H|[_ H]]; [lia | done].
  - apply (proj1 (Cmp_one _ _)) in E. split; [intros _; by left | done].
Qed.

Lemma committeeBefore_irrefl v : ¬ committeeBefore v v.
Proof. intros [H|[_ H]]; [lia | by apply lexLt_irrefl in H]. Qed.

#[global] Instance committeeBefore_trans : Transitive committeeBefore.
Proof.
  intros x y z [H1|[H1 L1]] [H2|[H2 L2]]; [left; lia..|].
  right. split; [lia|]. eapply lexLt_trans; eauto.
Qed.

Lemma committeeBefore_asym v1 v2 : committeeBefore v1 v2 → ¬ committeeBefore v2 v1.
Proof.
  intros H1 H2. apply (committeeBefore_irrefl v1). by transitivity v2.
Qed.

Lemma committeeBefore_total v1 v2 :
  Address v1 ≠ Address v2 → committeeBefore v1 v2 ∨ committeeBefore v2 v1.
Proof.
  intros Hne. unfold committeeBefore.
  destruct (Z.lt_trichotomy (VotingPower v1) (VotingPower v2)) as [H|[H|H]];
    [auto | | auto].
  destruct (lexLt_trichotomy (Address v1) (Address v2)) as [?|[?|?]];
    [done | auto | auto].
Qed.

(** ** Sorting *)

Lemma insertSorted_Permutation {A} (lt : A → A → bool) x l :
  insertSorted lt x l ≡ₚ x :: l.
Proof.
  induction l as [|y l IH]; simpl; [done|].
  destruct (lt y x); [|done]. rewrite IH. apply Permutation_swap.
Qed.

Lemma sortSlice_Permutation {A} (lt : A → A → bool) l : sortSlice lt l ≡ₚ l.
Proof.
  induction l as [|x l IH]; simpl; [done|].
  by rewrite insertSorted_Permutation, IH.
Qed.

Lemma sortSlice_length {A} (lt : A → A → bool) l : length (sortSlice lt l) = length l.
Proof. by rewrite sortSlice_Permutation. Qed.

Lemma insertSorted_Sorted {A} (lt : A → A → bool) (R : A → A → Prop) x l :
  (∀ y, lt y x = true → R y x) →
  (∀ y, y ∈ l → lt y x = false → R x y) →
  Sorted R l → Sorted R (insertSorted lt x l).
Proof.
  intros Hlt Hge. induction 1 as [|y l Hl IH Hhd]; simpl.
  { repeat constructor. }
  destruct (lt y x) eqn:E.
  - constructor.
    + apply IH. intros z Hz. apply Hge. by right.
    + destruct Hhd as [|z l Hyz]; simpl.
      * constructor. by apply Hlt.
      * destruct (lt z x); constructor; [done | by apply Hlt].
  - constructor; [by constructor|]. constructor. apply Hge; [by left | done].
Qed.

(** On validators with pairwise different addresses the sorted slice is
    strictly ordered by the committee order. *)
Lemma sortSlice_less_sorted (l : list ValidatorMetadata) :
  NoDup (Address <$> l) → StronglySorted committeeBefore (sortSlice less l).
Proof.
  intros Hnd. apply Sorted_StronglySorted; [apply _|].
  induction l as [|x l IH]; simpl; [constructor|].
  apply NoDup_cons in Hnd as [Hx Hnd].
  apply insertSorted_Sorted; [| |by apply IH].
  - intros y. apply less_committeeBefore.
  - intros y Hy Hless. rewrite sortSlice_Permutation in Hy.
    destruct (committeeBefore_total x y) as [H|H]; [|done|].
    + intros E. apply Hx. rewrite E. by apply list_elem_of_fmap_2.
    + apply less_committeeBefore in H. congruence.
Qed.

(** Any slice that holds the same validators in committee order is the one
    [sortSlice] gives: the outcome of [sort.Slice] does not depend on the
    sorting algorithm. *)
Lemma sortSlice_unique (l l' : list ValidatorMetadata) :
  NoDup (Address <$> l) → l' ≡ₚ l → StronglySorted committeeBefore l' →
  l' = sortSlice less l.
Proof.
  intros Hnd Hp Hs. apply (StronglySorted_unique_strong committeeBefore); [|done| |].
  - intros x y _ _ H1 H2. by apply committeeBefore_asym in H1.
  - by apply sortSlice_less_sorted.
  - by rewrite sortSlice_Permutation.
Qed.

Lemma sortSlice_Permutation_eq (l1 l2 : list ValidatorMetadata) :
  NoDup (Address <$> l1) → l1 ≡ₚ l2 → sortSlice less l1 = sortSlice less l2.
Proof.
  intros Hnd Hp. apply sortSlice_unique.
  - by rewrite <-Hp.
  - by rewrite sortSlice_Permutation.
  - by apply sortSlice_less_sorted.
Qed.

(** ** The stake map *)

Implicit Types rng : validatorStakeMap → list (types.Address * ValidatorMetadata).
Implicit Types sc : validatorStakeMap.

Lemma Copy_id v : Copy v = v.
Proof. by destruct v. Qed.

Lemma newValidatorStakeMap_snoc l v :
  newValidatorStakeMap (l ++ [v]) = <[Address v := v]> (newValidatorStakeMap l).
Proof. unfold newValidatorStakeMap. rewrite foldl_app. simpl. by rewrite Copy_id. Qed.

Lemma newValidatorStakeMap_keyed l : keyed (newValidatorStakeMap l).
Proof.
  induction l as [|v l IH] using rev_ind.
  - intros a v. unfold newValidatorStakeMap. simpl. by rewrite lookup_empty.
  - rewrite newValidatorStakeMap_snoc. intros a w.
    rewrite lookup_insert. case_decide; [naive_solver | apply IH].
Qed.

Lemma addStake_keyed sc address amount : keyed sc → keyed (addStake sc address amount).
Proof.
  intros Hk a v. unfold addStake.
  destruct (sc !! address) as [metadata|] eqn:E; rewrite lookup_insert;
    case_decide; subst; try apply Hk.
  - intros [= <-]. simpl. by apply Hk.
  - by intros [= <-].
Qed.

Lemma removeStake_keyed sc address amount sc' :
  keyed sc → removeStake sc address amount = Return sc' → keyed sc'.
Proof.
  intros Hk. unfold removeStake.
  destruct (sc !! address) as [stakeData|] eqn:E; [|done].
  intros [= <-] a v. rewrite lookup_insert. case_decide; subst; [|apply Hk].
  intros [= <-]. simpl. by apply Hk.
Qed.

Lemma keyed_addresses (sc : validatorStakeMap) :
  keyed sc → Address <$> (map_to_list sc).*2 = (map_to_list sc).*1.
Proof.
  intros Hk. rewrite <-list_fmap_compose. apply Forall_fmap_ext, Forall_forall.
  intros [a v] Hav. simpl. apply Hk. by apply elem_of_map_to_list in Hav.
Qed.

Lemma range_values_NoDup rng (sc : validatorStakeMap) :
  RangeOrder rng → keyed sc → NoDup (Address <$> (rng sc).*2).
Proof.
  intros Hr Hk. rewrite (Hr sc), keyed_addresses by done.
  apply NoDup_fst_map_to_list.
Qed.

Lemma range_values_elem_of rng (sc : validatorStakeMap) v :
  RangeOrder rng → v ∈ (rng sc).*2 ↔ ∃ a, sc !! a = Some v.
Proof.
  intros Hr. rewrite (Hr sc), list_elem_of_fmap. split.
  - intros [[a w] [-> Hin]]. exists a. by apply elem_of_map_to_list.
  - intros [a Ha]. exists (a, v). split; [done|]. by apply elem_of_map_to_list.
Qed.

Lemma filter_addresses_NoDup (P : ValidatorMetadata → Prop)
  `{∀ v, Decision (P v)} (l : list ValidatorMetadata) :
  NoDup (Address <$> l) → NoDup (Address <$> filter P l).
Proof.
  intros Hnd. eapply sublist_NoDup; [done|]. apply fmap_sublist, sublist_filter.
Qed.

Lemma NoDup_fmap_inj_elem {A B} (f : A → B) (l : list A) x y :
  NoDup (f <$> l) → x ∈ l → y ∈ l → f x = f y → x = y.
Proof.
  induction l as [|z l IH]; simpl; intros Hnd Hx Hy E.
  { by apply elem_of_nil in Hx. }
  apply NoDup_cons in Hnd as [Hz Hnd].
  apply elem_of_cons in Hx as [->|Hx]; apply elem_of_cons in Hy as [->|Hy].
  - done.
  - exfalso. apply Hz. rewrite E. by apply list_elem_of_fmap_2.
  - exfalso. apply Hz. rewrite <-E. by apply list_elem_of_fmap_2.
  - by apply IH.
Qed.

Lemma getActiveValidators_take rng sc maxSize :
  0 ≤ maxSize →
  getActiveValidators rng sc maxSize
  = Return (take (Z.to_nat maxSize) (activeSorted rng sc)).
Proof.
  intros Hmax. unfold getActiveValidators. fold (activeSorted rng sc).
  case_decide as Hlen.
  - rewrite take_ge by lia. done.
  - case_decide; [lia | done].
Qed.

Lemma getActiveValidators_negative rng sc maxSize :
  maxSize < 0 → getActiveValidators rng sc maxSize = Panic SliceBoundsOutOfRange.
Proof.
  intros Hmax. unfold getActiveValidators.
  case_decide as Hlen; [lia|]. by case_decide.
Qed.

Lemma activeSorted_Permutation rng sc :
  activeSorted rng sc ≡ₚ filter (λ v, 0 < Cmp (VotingPower v) bigZero) (rng sc).*2.
Proof. apply sortSlice_Permutation. Qed.

Lemma activeSorted_addresses_NoDup rng sc :
  RangeOrder rng → keyed sc → NoDup (Address <$> activeSorted rng sc).
Proof.
  intros Hr Hk. rewrite activeSorted_Permutation.
  by apply filter_addresses_NoDup, range_values_NoDup.
Qed.

Lemma activeSorted_elem_of rng sc v :
  RangeOrder rng →
  v ∈ activeSorted rng sc ↔ (∃ a, sc !! a = Some v) ∧ 0 < VotingPower v.
Proof.
  intros Hr. rewrite activeSorted_Permutation, list_elem_of_filter.
  rewrite range_values_elem_of by done. unfold bigZero. rewrite Cmp_pos. tauto.
Qed.

Lemma activeSorted_sorted rng sc :
  RangeOrder rng → keyed sc → StronglySorted committeeBefore (activeSorted rng sc).
Proof.
  intros Hr Hk. apply sortSlice_less_sorted.
  by apply filter_addresses_NoDup, range_values_NoDup.
Qed.

(** The sorted slice does not depend on the order in which the map was
    walked. *)
Lemma activeSorted_order_irrelevant rng1 rng2 sc :
  RangeOrder rng1 → RangeOrder rng2 → keyed sc →
  activeSorted rng1 sc = activeSorted rng2 sc.
Proof.
  intros H1 H2 Hk. apply sortSlice_Permutation_eq.
  - by apply filter_addresses_NoDup, range_values_NoDup.
  - by rewrite (H1 sc), (H2 sc).
Qed.

Lemma getActiveValidators_order_irrelevant rng1 rng2 sc maxSize :
  RangeOrder rng1 → RangeOrder rng2 → keyed sc →
  getActiveValidators rng1 sc maxSize = getActiveValidators rng2 sc maxSize.
Proof.
  intros H1 H2 Hk. destruct (Z.lt_ge_cases maxSize 0).
  - by rewrite !getActiveValidators_negative.
  - rewrite !getActiveValidators_take by lia.
    by rewrite (activeSorted_order_irrelevant rng1 rng2).
Qed.

Lemma getActiveValidators_Return rng sc maxSize next :
  getActiveValidators rng sc maxSize = Return next →
  0 ≤ maxSize ∧ next = take (Z.to_nat maxSize) (activeSorted rng sc).
Proof.
  intros H. destruct (Z.lt_ge_cases maxSize 0).
  - by rewrite getActiveValidators_negative in H.
  - rewrite getActiveValidators_take in H by lia. split; [lia | congruence].
Qed.

(** C2. For every stake map whose entries are filed under their own
    address, every order of walking it and every non-negative size limit,
    [getActiveValidators] returns the first [maxSize] entries of the slice
    [active] that holds exactly the entries with positive voting power, each
    once, in committee order (strictly descending voting power, ties by
    ascending address bytes); the result has at most [maxSize] entries and is
    the whole of [active] when that has at most [maxSize] entries. *)
Theorem getActiveValidators_sorted_capped rng sc maxSize :
  RangeOrder rng → keyed sc → 0 ≤ maxSize →
  ∃ active,
    (∀ v, v ∈ active ↔ (∃ a, sc !! a = Some v) ∧ 0 < VotingPower v)
    ∧ NoDup active
    ∧ StronglySorted committeeBefore active
    ∧ getActiveValidators rng sc maxSize = Return (take (Z.to_nat maxSize) active)
    ∧ Z.of_nat (length (take (Z.to_nat maxSize) active)) ≤ maxSize
    ∧ (Z.of_nat (length active) ≤ maxSize → take (Z.to_nat maxSize) active = active).
Proof.
  intros Hr Hk Hmax. exists (activeSorted rng sc). split_and!.
  - intros v. by apply activeSorted_elem_of.
  - eapply NoDup_fmap_1, activeSorted_addresses_NoDup; done.
  - by apply activeSorted_sorted.
  - by apply getActiveValidators_take.
  - rewrite length_take. lia.
  - intros Hlen. apply take_ge. lia.
Qed.

(** ** The two loops of [UpdateValidatorSet] *)

Lemma indexOld_lookup_other addressesSet i old m0 b0 a :
  a ∉ (Address <$> old) →
  (indexOld addressesSet i old m0 b0).1 !! a = m0 !! a.
Proof.
  revert i m0 b0. induction old as [|x old IH]; intros i m0 b0 Ha; [done|].
  simpl in *. apply not_elem_of_cons in Ha as [Hne Ha].
  rewrite IH by done. by rewrite lookup_insert_ne.
Qed.

Lemma indexOld_lookup addressesSet i old m0 b0 v :
  NoDup (Address <$> old) → v ∈ old →
  (indexOld addressesSet i old m0 b0).1 !! Address v = Some v.
Proof.
  revert i m0 b0. induction old as [|x old IH]; intros i m0 b0 Hnd Hv.
  { by apply elem_of_nil in Hv. }
  simpl in *. apply NoDup_cons in Hnd as [Hx Hnd].
  apply elem_of_cons in Hv as [->|Hv].
  - rewrite indexOld_lookup_other by done. by rewrite lookup_insert_eq.
  - by apply IH.
Qed.

Lemma indexOld_lookup_Some addressesSet i old b0 a v :
  NoDup (Address <$> old) →
  (indexOld addressesSet i old ∅ b0).1 !! a = Some v ↔ v ∈ old ∧ Address v = a.
Proof.
  intros Hnd. split.
  - intros Hl. destruct (decide (a ∈ (Address <$> old))) as [Hin|Hin].
    + apply list_elem_of_fmap in Hin as (o & -> & Ho).
      rewrite indexOld_lookup in Hl by done. naive_solver.
    + rewrite indexOld_lookup_other in Hl by done. by rewrite lookup_empty in Hl.
  - intros [Hv <-]. by apply indexOld_lookup.
Qed.

Lemma indexOld_lookup_None addressesSet i old b0 a :
  (indexOld addressesSet i old ∅ b0).1 !! a = None ↔ a ∉ (Address <$> old).
Proof.
  split.
  - intros Hl Hin. revert i b0 Hl.
    generalize (∅ : gmap types.Address ValidatorMetadata).
    induction old as [|x old IH]; intros m0 i b0 Hl.
    { by apply elem_of_nil in Hin. }
    simpl in *. destruct (decide (a ∈ (Address <$> old))) as [Hin'|Hin'].
    + by apply IH in Hl.
    + rewrite indexOld_lookup_other in Hl by done.
      apply elem_of_cons in Hin as [->|Hin]; [|done].
      by rewrite lookup_insert_eq in Hl.
  - intros Hin. rewrite indexOld_lookup_other by done. apply lookup_empty.
Qed.

Lemma indexOld_bitmap addressesSet i old m0 b0 j :
  bitmap.IsSet (indexOld addressesSet i old m0 b0).2 j = true ↔
  bitmap.IsSet b0 j = true
  ∨ ∃ k v, old !! k = Some v ∧ j = (i + N.of_nat k)%N ∧ Address v ∉ addressesSet.
Proof.
  revert i m0 b0. induction old as [|x old IH]; intros i m0 b0; simpl.
  { split; [by left|]. intros [?|(k & v & Hk & _)]; [done|]. by destruct k. }
  rewrite IH. clear IH. split.
  - intros [Hb|(k & v & Hk & -> & Hv)].
    + case_decide as Hx; [by left|].
      unfold bitmap.IsSet, bitmap.Set_ in Hb. rewrite N.setbit_eqb in Hb.
      apply orb_true_iff in Hb as [Hb|Hb]; [|by left].
      apply N.eqb_eq in Hb as <-. right. exists 0%nat, x. split_and!; [done|lia|done].
    + right. exists (S k), v. split_and!; [done|lia|done].
  - intros [Hb|(k & v & Hk & -> & Hv)].
    + left. case_decide; [done|].
      unfold bitmap.IsSet, bitmap.Set_. rewrite N.setbit_eqb, orb_true_iff. by right.
    + destruct k as [|k]; simpl in Hk.
      * injection Hk as ->. left. rewrite decide_False by done.
        unfold bitmap.IsSet, bitmap.Set_. rewrite N.setbit_eqb, orb_true_iff.
        left. apply N.eqb_eq. lia.
      * right. exists k, v. split_and!; [done|lia|done].
Qed.

Lemma getNewValidatorInfo_run s address stake w :
  getNewValidatorInfo s address stake w
  = (match rootChainRelayer s address with
     | inl err => Fail err
     | inr pubKey => Return {| Address := address; BlsKey := Some pubKey;
                               VotingPower := stake; IsActive := true |}
     end,
     {| store := store w; registryCalls := registryCalls w ++ [address] |}).
Proof. unfold getNewValidatorInfo. by destruct (rootChainRelayer s address). Qed.

Lemma resolved_keyed s v k : BlsKey v = Some k → resolved s v = v.
Proof. unfold resolved. by intros ->. Qed.

Lemma resolved_fetched s v pubKey :
  BlsKey v = None → rootChainRelayer s (Address v) = inr pubKey →
  resolved s v = {| Address := Address v; BlsKey := Some pubKey;
                    VotingPower := VotingPower v; IsActive := true |}.
Proof. unfold resolved. by intros -> ->. Qed.

Lemma resolved_Address s v : Address (resolved s v) = Address v.
Proof.
  unfold resolved. destruct (BlsKey v); [done|].
  by destruct (rootChainRelayer s (Address v)).
Qed.

Lemma resolved_VotingPower s v : VotingPower (resolved s v) = VotingPower v.
Proof.
  unfold resolved. destruct (BlsKey v); [done|].
  by destruct (rootChainRelayer s (Address v)).
Qed.

Lemma classify_spec s m next U A w :
  match classify s m next U A w with
  | (Return (U', A'), w') =>
      U' = U ++ filter (changedIn m) next
      ∧ A' = A ++ (resolved s <$> filter (isNewIn m) next)
      ∧ Forall (λ v, is_Some (BlsKey (resolved s v))) (filter (isNewIn m) next)
      ∧ store w' = store w
      ∧ registryCalls w' = registryCalls w ++ (Address <$> filter (needsLookup m) next)
  | (Fail e, w') =>
      ∃ pre v post err,
        filter (needsLookup m) next = pre ++ v :: post
        ∧ Forall (λ v, ∃ k, rootChainRelayer s (Address v) = inr k) pre
        ∧ rootChainRelayer s (Address v) = inl err
        ∧ e = ErrRetrieveValidatorData (Address v) err
        ∧ store w' = store w
        ∧ registryCalls w' = registryCalls w ++ (Address <$> pre) ++ [Address v]
  | (Panic _, _) => False
  end.
Proof.
  revert U A w. induction next as [|x next IH]; intros U A w; simpl.
  { rewrite !app_nil_r. by split_and!. }
  destruct (m !! Address x) as [o|] eqn:Em.
  - rewrite (filter_cons_False (isNewIn m)) by (unfold isNewIn; congruence).
    rewrite (filter_cons_False (needsLookup m)) by (intros [? _]; congruence).
    case_decide as Hc.
    + rewrite (filter_cons_True (changedIn m))
        by (unfold changedIn; rewrite Em; by rewrite Cmp_zero in Hc).
      specialize (IH (U ++ [x]) A w).
      destruct (classify s m next (U ++ [x]) A w) as [[[U' A']|e|p] w']; [|done..].
      by rewrite <-app_assoc in IH.
    + rewrite (filter_cons_False (changedIn m))
        by (unfold changedIn; rewrite Em; rewrite Cmp_zero in Hc; by intros ?).
      apply IH.
  - rewrite (filter_cons_True (isNewIn m)) by exact Em.
    rewrite (filter_cons_False (changedIn m)) by (unfold changedIn; rewrite Em; tauto).
    destruct (BlsKey x) as [k|] eqn:Ek.
    + rewrite (filter_cons_False (needsLookup m)) by (intros [_ ?]; congruence).
      specialize (IH U (A ++ [x]) w).
      destruct (classify s m next U (A ++ [x]) w) as [[[U' A']|e|p] w']; [|done..].
      rewrite <-app_assoc in IH. simpl. rewrite (resolved_keyed s x k) by done.
      destruct IH as (?&?&?&?&?). split_and!; try done.
      constructor; [|done].
      simpl. rewrite (resolved_keyed s x k) by done. rewrite Ek. by eexists.
    + rewrite (filter_cons_True (needsLookup m)) by (by split).
      rewrite getNewValidatorInfo_run.
      destruct (rootChainRelayer s (Address x)) as [err|pubKey] eqn:Er.
      * exists [], x, (filter (needsLookup m) next), err. by split_and!.
      * match goal with |- context [classify s m next U ?A' ?w'] =>
          specialize (IH U A' w');
          destruct (classify s m next U A' w') as [[[U' A'']|e|p] w'']
        end; [| |done].
        -- simpl in *. rewrite (resolved_fetched s x pubKey) by done.
           rewrite <-!app_assoc in IH. destruct IH as (?&?&?&?&?).
           split_and!; try done. constructor; [|done].
           simpl. rewrite (resolved_fetched s x pubKey) by done. by eexists.
        -- destruct IH as (pre & v & post & err & Hf & Hpre & Hv & -> & Hst & Hc).
           exists (x :: pre), v, post, err. simpl in *. rewrite Hf.
           rewrite <-!app_assoc in Hc. split_and!; try done.
           constructor; eauto.
Qed.

(** ** [UpdateValidatorSet] *)

(** Once the full set is loaded and the next committee selected,
    [UpdateValidatorSet] is its two loops; the debug branch changes nothing. *)
Lemma UpdateValidatorSet_run rng s epoch old w next :
  loadFault (store w) = None →
  getActiveValidators rng (newValidatorStakeMap (snapshot (store w)))
    (maxValidatorSetSize s) = Return next →
  UpdateValidatorSet rng s epoch old w
  = match classify s
            (indexOld (list_to_set (Address <$> next)) 0 old ∅ bitmap.empty).1
            next [] [] w with
    | (Return (u, a), w') =>
        (Return {| Added := a; Updated := u;
                   Removed := (indexOld (list_to_set (Address <$> next)) 0 old ∅
                                 bitmap.empty).2 |}, w')
    | (Fail e, w') => (Fail e, w')
    | (Panic p, w') => (Panic p, w')
    end.
Proof.
  intros Hload Hnext. unfold UpdateValidatorSet, getFullValidatorSet.
  rewrite Hload. unfold mbind, M_bind, mret, M_ret, lift. rewrite Hnext.
  destruct (indexOld _ _ _ _ _) as [m b]. simpl.
  destruct (classify s m next [] [] w) as [[[u a]|e|p] w']; try done.
  by destruct (loggerIsDebug s).
Qed.

Lemma UpdateValidatorSet_Return rng s epoch old w delta w' :
  UpdateValidatorSet rng s epoch old w = (Return delta, w') →
  ∃ next,
    loadFault (store w) = None
    ∧ getActiveValidators rng (newValidatorStakeMap (snapshot (store w)))
        (maxValidatorSetSize s) = Return next
    ∧ classify s (indexOld (list_to_set (Address <$> next)) 0 old ∅ bitmap.empty).1
        next [] [] w = (Return (Updated delta, Added delta), w')
    ∧ Removed delta
      = (indexOld (list_to_set (Address <$> next)) 0 old ∅ bitmap.empty).2.
Proof.
  intros H.
  destruct (loadFault (store w)) as [err|] eqn:Hload.
  { unfold UpdateValidatorSet, getFullValidatorSet in H. by rewrite Hload in H. }
  destruct (getActiveValidators rng (newValidatorStakeMap (snapshot (store w)))
              (maxValidatorSetSize s)) as [next|e|p] eqn:Hnext.
  - exists next. rewrite (UpdateValidatorSet_run _ _ _ _ _ next) in H by done.
    destruct (classify _ _ _ _ _ _) as [[[u a]|e|p] w'']; try done.
    by injection H as <- <-.
  - unfold UpdateValidatorSet, getFullValidatorSet in H. rewrite Hload in H.
    unfold mbind, M_bind, mret, M_ret, lift in H. by rewrite Hnext in H.
  - unfold UpdateValidatorSet, getFullValidatorSet in H. rewrite Hload in H.
    unfold mbind, M_bind, mret, M_ret, lift in H. by rewrite Hnext in H.
Qed.

Lemma next_addresses_NoDup rng full maxSize next :
  RangeOrder rng →
  getActiveValidators rng (newValidatorStakeMap full) maxSize = Return next →
  NoDup (Address <$> next).
Proof.
  intros Hr [_ ->]%getActiveValidators_Return.
  eapply sublist_NoDup.
  - apply (activeSorted_addresses_NoDup rng); [done|].
    apply newValidatorStakeMap_keyed.
  - apply fmap_sublist, sublist_take.
Qed.

Lemma isNewIn_old addressesSet old v :
  isNewIn (indexOld addressesSet 0 old ∅ bitmap.empty).1 v
  ↔ Address v ∉ Address <$> old.
Proof. apply indexOld_lookup_None. Qed.

Lemma changedIn_old addressesSet old v :
  NoDup (Address <$> old) →
  changedIn (indexOld addressesSet 0 old ∅ bitmap.empty).1 v
  ↔ ∃ o, o ∈ old ∧ Address o = Address v ∧ VotingPower o ≠ VotingPower v.
Proof.
  intros Hnd. unfold changedIn.
  destruct (_ !! Address v) as [o|] eqn:E.
  - apply indexOld_lookup_Some in E as [Ho Ha]; [|done]. split; [by eauto|].
    intros (o' & Ho' & Ha' & Hp).
    assert (o' = o) as ->; [|done].
    apply (NoDup_fmap_inj_elem Address old); [done..|congruence].
  - apply indexOld_lookup_None in E. split; [done|].
    intros (o & Ho & Ha & _). apply E. rewrite <-Ha. by apply list_elem_of_fmap_2.
Qed.

(** What a returned delta holds, in terms of the index of the old set. *)
Lemma UpdateValidatorSet_delta_eqs rng s epoch old w delta w' :
  UpdateValidatorSet rng s epoch old w = (Return delta, w') →
  ∃ next,
    getActiveValidators rng (newValidatorStakeMap (snapshot (store w)))
      (maxValidatorSetSize s) = Return next
    ∧ Updated delta
      = filter (changedIn (indexOld (list_to_set (Address <$> next)) 0 old ∅
                             bitmap.empty).1) next
    ∧ Added delta
      = resolved s <$>
          filter (isNewIn (indexOld (list_to_set (Address <$> next)) 0 old ∅
                             bitmap.empty).1) next
    ∧ Forall (λ v, is_Some (BlsKey (resolved s v)))
        (filter (isNewIn (indexOld (list_to_set (Address <$> next)) 0 old ∅
                            bitmap.empty).1) next)
    ∧ (∀ i, bitmap.IsSet (Removed delta) i = true
            ↔ ∃ v, old !! N.to_nat i = Some v ∧ Address v ∉ Address <$> next).
Proof.
  intros (next & Hload & Hnext & Hc & Hb)%UpdateValidatorSet_Return.
  exists next. split; [done|].
  pose proof (classify_spec s
    (indexOld (list_to_set (Address <$> next)) 0 old ∅ bitmap.empty).1
    next [] [] w) as Hs.
  rewrite Hc in Hs. simpl in Hs. destruct Hs as (HU & HA & Hkeys & _ & _).
  split_and!; try done.
  intros i. rewrite Hb, indexOld_bitmap. split.
  - intros [Hi|(k & v & Hk & -> & Hv)]; [done|].
    exists v. rewrite N.add_0_l, Nat2N.id. split; [done|].
    by rewrite elem_of_list_to_set in Hv.
  - intros (v & Hi & Hv). right. exists (N.to_nat i), v. split_and!; [done|lia|].
    by rewrite elem_of_list_to_set.
Qed.

(** C1. When [UpdateValidatorSet] returns a delta for a current committee
    with unique addresses, then with [next] the committee that
    [getActiveValidators] selects from the stored full set: bit [i] of
    [Removed] is set exactly when position [i] of the current committee
    holds an address that [next] lacks; [Updated] holds exactly the
    validators of [next] that the current committee has with another voting
    power; [Added] holds exactly the validators of [next] (by address) that
    the current committee lacks, each with the address and voting power
    [next] gives it and with a key (its own record when that has one); and a
    validator of both committees with the same voting power is in none of
    the three. *)
Theorem UpdateValidatorSet_delta rng s epoch old w delta w' :
  RangeOrder rng → NoDup (Address <$> old) →
  UpdateValidatorSet rng s epoch old w = (Return delta, w') →
  ∃ next,
    getActiveValidators rng (newValidatorStakeMap (snapshot (store w)))
      (maxValidatorSetSize s) = Return next
    ∧ (∀ i, bitmap.IsSet (Removed delta) i = true
            ↔ ∃ v, old !! N.to_nat i = Some v ∧ Address v ∉ (Address <$> next))
    ∧ (∀ v, v ∈ Updated delta
            ↔ v ∈ next ∧ ∃ o, o ∈ old ∧ Address o = Address v
                               ∧ VotingPower o ≠ VotingPower v)
    ∧ (∀ a, a ∈ (Address <$> Added delta)
            ↔ a ∈ (Address <$> next) ∧ a ∉ (Address <$> old))
    ∧ (∀ x, x ∈ Added delta →
            ∃ v, v ∈ next ∧ Address x = Address v
                 ∧ VotingPower x = VotingPower v
                 ∧ is_Some (BlsKey x)
                 ∧ (is_Some (BlsKey v) → x = v))
    ∧ (∀ i o v, old !! i = Some o → v ∈ next → Address o = Address v →
                VotingPower o = VotingPower v →
                bitmap.IsSet (Removed delta) (N.of_nat i) = false
                ∧ (Address v ∉ Address <$> Added delta)
                ∧ (Address v ∉ Address <$> Updated delta)).
Proof.
  intros Hr Hnd (next & Hnext & HU & HA & Hkeys & Hrem)%UpdateValidatorSet_delta_eqs.
  exists next. split; [done|].
  assert (Hupd : ∀ v, v ∈ Updated delta
            ↔ v ∈ next ∧ ∃ o, o ∈ old ∧ Address o = Address v
                               ∧ VotingPower o ≠ VotingPower v).
  { intros v. rewrite HU. simpl. rewrite list_elem_of_filter.
    rewrite changedIn_old by done. tauto. }
  assert (Hadd : ∀ a, a ∈ (Address <$> Added delta)
            ↔ a ∈ (Address <$> next) ∧ a ∉ (Address <$> old)).
  { intros a. rewrite HA. simpl. split.
    - intros (x & -> & (v & -> & [Hv Hin]%list_elem_of_filter)%list_elem_of_fmap)
        %list_elem_of_fmap.
      rewrite resolved_Address. split; [by apply list_elem_of_fmap_2|].
      exact (proj1 (isNewIn_old _ _ _) Hv).
    - intros [(v & -> & Hv)%list_elem_of_fmap Ha]. apply list_elem_of_fmap.
      exists (resolved s v). split; [by rewrite resolved_Address|].
      apply list_elem_of_fmap_2, list_elem_of_filter. split; [|done].
      exact (proj2 (isNewIn_old _ _ _) Ha). }
  split_and!; try done.
  - intros x. rewrite HA. simpl.
    intros (v & -> & [Hv Hin]%list_elem_of_filter)%list_elem_of_fmap.
    rewrite Forall_forall in Hkeys.
    assert (Hkey : is_Some (BlsKey (resolved s v))).
    { apply Hkeys, list_elem_of_filter. done. }
    exists v. unfold resolved in *. destruct (BlsKey v) as [k|] eqn:Ek.
    + by split_and!.
    + destruct (rootChainRelayer s (Address v)) as [err|pk].
      * rewrite Ek in Hkey. by destruct Hkey.
      * by split_and!.
  - intros i o v Hi Hv Ha Hp. split_and!.
    + apply not_true_is_false. rewrite Hrem, Nat2N.id.
      intros (o' & Hi' & Ho'). rewrite Hi in Hi'. injection Hi' as <-.
      apply Ho'. rewrite Ha. by apply list_elem_of_fmap_2.
    + rewrite Hadd. intros [_ Hold]. apply Hold. rewrite <-Ha.
      apply list_elem_of_fmap_2. by eapply list_elem_of_lookup_2.
    + intros (u & Hu & [Hun (o' & Ho' & Ha' & Hp')]%Hupd)%list_elem_of_fmap.
      assert (u = v) as ->.
      { apply (NoDup_fmap_inj_elem Address next); [|done..].
        by eapply next_addresses_NoDup. }
      assert (o' = o) as ->; [|done].
      apply (NoDup_fmap_inj_elem Address old); [done..| |congruence].
      by eapply list_elem_of_lookup_2.
Qed.

(** The log of registry calls is only written, never read: the outcome of
    the second loop does not depend on it. *)
Lemma classify_outcome_log s m next U A w1 w2 :
  (classify s m next U A w1).1 = (classify s m next U A w2).1.
Proof.
  revert U A w1 w2. induction next as [|x next IH]; intros U A w1 w2; [done|].
  simpl. destruct (m !! Address x) as [o|].
  - case_decide; apply IH.
  - destruct (BlsKey x); [apply IH|].
    rewrite !getNewValidatorInfo_run.
    destruct (rootChainRelayer s (Address x)); [done | apply IH].
Qed.

Lemma UpdateValidatorSet_outcome_log rng s epoch old w1 w2 :
  store w1 = store w2 →
  (UpdateValidatorSet rng s epoch old w1).1 = (UpdateValidatorSet rng s epoch old w2).1.
Proof.
  intros Hst. unfold UpdateValidatorSet, getFullValidatorSet. rewrite Hst.
  destruct (loadFault (store w2)); [done|].
  unfold mbind, M_bind, mret, M_ret, lift.
  destruct (getActiveValidators _ _ _) as [next|e|p]; [|done..].
  destruct (indexOld _ _ _ _ _) as [m b].
  pose proof (classify_outcome_log s m next [] [] w1 w2) as Hc.
  destruct (classify s m next [] [] w1) as [[[u a]|e|p] w1'],
    (classify s m next [] [] w2) as [[[u' a']|e'|p'] w2']; simpl in Hc; try done.
  - injection Hc as -> ->. by destruct (loggerIsDebug s).
  - by injection Hc as ->.
  - by injection Hc as ->.
Qed.

Lemma UpdateValidatorSet_order_irrelevant rng1 rng2 s epoch old w :
  RangeOrder rng1 → RangeOrder rng2 →
  UpdateValidatorSet rng1 s epoch old w = UpdateValidatorSet rng2 s epoch old w.
Proof.
  intros H1 H2. unfold UpdateValidatorSet.
  destruct (getFullValidatorSet w) as [[full|e|p] w']; [|done..].
  unfold mbind, M_bind, mret, M_ret, lift.
  by rewrite (getActiveValidators_order_irrelevant rng1 rng2)
    by (done || apply newValidatorStakeMap_keyed).
Qed.

(** C3. Two runs of [UpdateValidatorSet] with the same stake manager (the
    same registry answers), the same store and the same current committee
    have the same outcome, whatever the order in which each run walks its
    stake map: the same [Added] and [Updated] slices in the same order and
    the same [Removed] bitmap, or the same error. *)
Theorem UpdateValidatorSet_deterministic rng1 rng2 s epoch old w1 w2 :
  RangeOrder rng1 → RangeOrder rng2 → store w1 = store w2 →
  (UpdateValidatorSet rng1 s epoch old w1).1
  = (UpdateValidatorSet rng2 s epoch old w2).1.
Proof.
  intros H1 H2 Hst.
  rewrite (UpdateValidatorSet_order_irrelevant rng1 rng2) by done.
  by apply UpdateValidatorSet_outcome_log.
Qed.

Lemma needsLookup_old addressesSet old v :
  needsLookup (indexOld addressesSet 0 old ∅ bitmap.empty).1 v
  ↔ (Address v ∉ Address <$> old) ∧ BlsKey v = None.
Proof. unfold needsLookup. by rewrite indexOld_lookup_None. Qed.

(** C6. In [UpdateValidatorSet], with [seekers] the validators of the next
    committee that the current committee lacks and that have no key: the
    registry is called for a prefix [looked] of [seekers], once each in
    order, and never for an address of the current committee. When a delta
    is returned every seeker was looked up with success; when the lookup of
    a seeker fails the method returns the error of the first such failure,
    wrapped, and no delta. There is no other outcome. *)
Theorem UpdateValidatorSet_lookups rng s epoch old w next :
  RangeOrder rng → loadFault (store w) = None →
  getActiveValidators rng (newValidatorStakeMap (snapshot (store w)))
    (maxValidatorSetSize s) = Return next →
  let seekers :=
    filter (λ v, (Address v ∉ Address <$> old) ∧ BlsKey v = None) next in
  ∃ looked,
    registryCalls (UpdateValidatorSet rng s epoch old w).2
    = registryCalls w ++ (Address <$> looked)
    ∧ looked `prefix_of` seekers
    ∧ NoDup (Address <$> looked)
    ∧ (∀ o, o ∈ old → Address o ∉ Address <$> looked)
    ∧ match (UpdateValidatorSet rng s epoch old w).1 with
      | Return delta =>
          looked = seekers
          ∧ Forall (λ v, ∃ k, rootChainRelayer s (Address v) = inr k) seekers
      | Fail e =>
          ∃ pre v err,
            looked = pre ++ [v]
            ∧ Forall (λ v, ∃ k, rootChainRelayer s (Address v) = inr k) pre
            ∧ rootChainRelayer s (Address v) = inl err
            ∧ e = ErrRetrieveValidatorData (Address v) err
      | Panic _ => False
      end
    ∧ ((∃ v err, v ∈ seekers ∧ rootChainRelayer s (Address v) = inl err) →
       ∃ e, (UpdateValidatorSet rng s epoch old w).1 = Fail e).
Proof.
  intros Hr Hload Hnext seekers.
  rewrite (UpdateValidatorSet_run _ _ _ _ _ next) by done.
  set (m := (indexOld (list_to_set (Address <$> next)) 0 old ∅ bitmap.empty).1).
  assert (Hseek : filter (needsLookup m) next = seekers).
  { apply list_filter_iff. intros v. apply needsLookup_old. }
  assert (Hnd : NoDup (Address <$> seekers)).
  { apply filter_addresses_NoDup. by eapply next_addresses_NoDup. }
  assert (Hold : ∀ looked o, looked `prefix_of` seekers → o ∈ old →
                 Address o ∉ Address <$> looked).
  { intros looked o [k Hk] Ho (v & Ha & Hv)%list_elem_of_fmap.
    assert (v ∈ seekers) as [[Hv' _] _]%list_elem_of_filter.
    { rewrite Hk. apply elem_of_app. by left. }
    apply Hv'. rewrite <-Ha. by apply list_elem_of_fmap_2. }
  pose proof (classify_spec s m next [] [] w) as Hs.
  destruct (classify s m next [] [] w) as [[[u a]|e|p] w']; [| |done].
  - destruct Hs as (_ & _ & Hkeys & _ & Hcalls). rewrite Hseek in Hcalls.
    assert (Hok : Forall (λ v, ∃ k, rootChainRelayer s (Address v) = inr k) seekers).
    { apply Forall_forall. intros v [[Hv Hk] Hin]%list_elem_of_filter.
      rewrite Forall_forall in Hkeys.
      assert (Hkey : is_Some (BlsKey (resolved s v))).
      { apply Hkeys, list_elem_of_filter. split; [|done].
        exact (proj2 (isNewIn_old _ _ _) Hv). }
      unfold resolved in Hkey. rewrite Hk in Hkey.
      destruct (rootChainRelayer s (Address v)) as [err|k]; [|by eauto].
      rewrite Hk in Hkey. by destruct Hkey. }
    exists seekers. simpl. split_and!; try done.
    + intros o Ho. by apply Hold.
    + intros (v & err & Hv & Herr). rewrite Forall_forall in Hok.
      destruct (Hok v Hv) as [k Hk]. congruence.
  - destruct Hs as (pre & v & post & err & Hf & Hpre & Hv & -> & _ & Hcalls).
    rewrite Hseek in Hf.
    assert (Hp : (pre ++ [v]) `prefix_of` seekers).
    { exists post. by rewrite Hf, <-app_assoc. }
    exists (pre ++ [v]). simpl. split_and!.
    + by rewrite fmap_app.
    + done.
    + destruct Hp as [k Hk]. rewrite Hk, fmap_app in Hnd.
      by apply NoDup_app in Hnd as [? _].
    + intros o Ho. by apply Hold.
    + by exists pre, v, err.
    + intros _. by eexists.
Qed.

(** ** Mutations of the stake map *)

Lemma addStake_existing sc address amount metadata :
  sc !! address = Some metadata →
  addStake sc address amount !! address
  = Some {| Address := Address metadata; BlsKey := BlsKey metadata;
            VotingPower := VotingPower metadata + amount;
            IsActive := bool_decide (0 < VotingPower metadata + amount) |}.
Proof.
  intros H. unfold addStake.
  by rewrite H, lookup_insert_eq, Cmp_bigZero_ltb, ltb_bool_decide.
Qed.

Lemma addStake_new sc address amount :
  sc !! address = None →
  addStake sc address amount !! address
  = Some {| Address := address; BlsKey := None;
            VotingPower := amount; IsActive := true |}.
Proof. intros H. unfold addStake. by rewrite H, lookup_insert_eq. Qed.

Lemma addStake_other sc address amount a :
  a ≠ address → addStake sc address amount !! a = sc !! a.
Proof.
  intros H. unfold addStake.
  destruct (sc !! address); by rewrite lookup_insert_ne.
Qed.

(** C4, at the input where the code departs from the claim: a stake event
    of amount zero for an address the map does not hold creates an entry
    with voting power zero that is active, so [IsActive] differs from
    [VotingPower > 0]. *)
Theorem addStake_new_entry_zero_amount :
  let D := replicate 19 Byte.x00 ++ [Byte.x0d] in
  ∃ entry,
    addStake ∅ D 0 !! D = Some entry
    ∧ VotingPower entry = 0
    ∧ BlsKey entry = None
    ∧ IsActive entry = true
    ∧ bool_decide (0 < VotingPower entry) = false.
Proof. eexists. by split_and!; [apply addStake_new|..]. Qed.

(** C9. [removeStake] on an address the map holds returns the map with
    that entry's voting power decreased by the amount and [IsActive]
    recomputed, the other entries unchanged; it dereferences a nil entry
    exactly when the map does not hold the address; it returns no error. *)
Theorem removeStake_requires_entry sc address amount :
  (∀ stakeData, sc !! address = Some stakeData →
     ∃ sc', removeStake sc address amount = Return sc'
       ∧ sc' !! address
         = Some {| Address := Address stakeData; BlsKey := BlsKey stakeData;
                   VotingPower := VotingPower stakeData - amount;
                   IsActive := bool_decide (0 < VotingPower stakeData - amount) |}
       ∧ ∀ a, a ≠ address → sc' !! a = sc !! a)
  ∧ (sc !! address = None ↔ removeStake sc address amount = Panic NilDereference)
  ∧ (∀ e, removeStake sc address amount ≠ Fail e).
Proof.
  unfold removeStake. split_and!.
  - intros stakeData ->. eexists. split_and!; [done| |].
    + by rewrite lookup_insert_eq, Cmp_bigZero_ltb, ltb_bool_decide.
    + intros a Ha. by rewrite lookup_insert_ne.
  - destruct (sc !! address); split; done.
  - intros e. by destruct (sc !! address).
Qed.

(** ** [PostEpoch] *)

(** C10. [PostEpoch] returns nil and leaves the world as it is for every
    epoch other than the first; for the first epoch it is the insertion of
    the request's validator set as the full validator set: the snapshot
    becomes that set, or the store's fault is returned and nothing
    changes. *)
Theorem PostEpoch_writes_first_epoch_only s req w :
  (NewEpochID req ≠ 1 → PostEpoch s req w = (Return tt, w))
  ∧ (NewEpochID req = 1 →
     PostEpoch s req w = insertFullValidatorSet (ValidatorSet req) w
     ∧ (saveFault (store w) = None →
        (PostEpoch s req w).1 = Return tt
        ∧ snapshot (store (PostEpoch s req w).2) = ValidatorSet req)
     ∧ (∀ err, saveFault (store w) = Some err →
        PostEpoch s req w = (Fail err, w))).
Proof.
  unfold PostEpoch. split.
  - intros H. by rewrite decide_True.
  - intros H. rewrite decide_False by (by intros ?).
    unfold insertFullValidatorSet. split_and!; [done| |].
    + by intros ->.
    + by intros err ->.
Qed.

(** ** [getTransferEventsFromReceipts] *)

Section Extraction.
Variable ParseLog : Log → TransferEvent * bool * option error.

Lemma convertLog_id log : convertLog log = log.
Proof. by destruct log. Qed.

Lemma scanLogs_spec s logs events :
  let matching := filter (λ log, Log_Address log = validatorSetContract s) logs in
  scanLogs ParseLog s logs events
  = match head (omap (parseError ParseLog) matching) with
    | Some err => Fail err
    | None => Return (events ++ omap (parsedEvent ParseLog) matching)
    end.
Proof.
  simpl. unfold parseError, parsedEvent.
  revert events. induction logs as [|log logs IH]; intros events; simpl.
  { by rewrite app_nil_r. }
  destruct (decide (Log_Address log = validatorSetContract s)) as [Ha|Ha].
  - rewrite (decide_False (P := _ ≠ _)) by (by intros ?).
    rewrite filter_cons_True by done. rewrite convertLog_id. simpl.
    destruct (ParseLog log) as [[ev doesMatch] [err|]]; simpl.
    { by destruct doesMatch. }
    destruct doesMatch; rewrite IH; [|done].
    destruct (head _); [done|]. by rewrite <-app_assoc.
  - rewrite (decide_True (P := _ ≠ _)) by done.
    rewrite filter_cons_False by done. apply IH.
Qed.

Lemma candidateLogs_cons_succeeded s r receipts :
  succeeded r →
  candidateLogs s (r :: receipts)
  = filter (λ log, Log_Address log = validatorSetContract s) (Logs r)
    ++ candidateLogs s receipts.
Proof. intros H. unfold candidateLogs. by rewrite filter_cons_True. Qed.

Lemma candidateLogs_cons_skipped s r receipts :
  ¬ succeeded r → candidateLogs s (r :: receipts) = candidateLogs s receipts.
Proof. intros H. unfold candidateLogs. by rewrite filter_cons_False. Qed.

Lemma scanReceipts_spec s receipts events :
  scanReceipts ParseLog s receipts events
  = match head (omap (parseError ParseLog) (candidateLogs s receipts)) with
    | Some err => Fail err
    | None => Return (events ++ omap (parsedEvent ParseLog) (candidateLogs s receipts))
    end.
Proof.
  revert events. induction receipts as [|r receipts IH]; intros events.
  { simpl. by rewrite app_nil_r. }
  destruct (decide (succeeded r)) as [Hr|Hr].
  - rewrite candidateLogs_cons_succeeded by done. simpl.
    rewrite decide_False by (unfold succeeded in Hr; rewrite Hr; intros [?|?]; done).
    rewrite scanLogs_spec. simpl. rewrite !omap_app.
    destruct (omap (parseError ParseLog) (filter _ (Logs r))) as [|err errs]; [|done].
    simpl. rewrite IH. destruct (head _); [done|]. by rewrite app_assoc.
  - rewrite candidateLogs_cons_skipped by done. simpl.
    rewrite decide_True; [apply IH|]. unfold succeeded in Hr.
    destruct (Status r) as [st|]; [right; congruence | by left].
Qed.

(** C8. [getTransferEventsFromReceipts] parses, in receipt order and then
    log order, the logs of the receipts with a success status that the
    validator-set contract emitted, and nothing else. When no such log fails
    to parse it returns the events of those that match the event signature,
    in that order; otherwise it returns the error of the first one that
    fails, and no events. *)
Theorem getTransferEventsFromReceipts_spec s receipts :
  getTransferEventsFromReceipts ParseLog s receipts
  = match head (omap (parseError ParseLog) (candidateLogs s receipts)) with
    | Some err => Fail err
    | None => Return (omap (parsedEvent ParseLog) (candidateLogs s receipts))
    end.
Proof. unfold getTransferEventsFromReceipts. by rewrite scanReceipts_spec. Qed.

End Extraction.

(** ** [PostBlock] *)

Lemma applyEvents_no_Fail stakeMap events e : applyEvents stakeMap events ≠ Fail e.
Proof.
  revert stakeMap. induction events as [|event events IH]; intros stakeMap; [done|].
  simpl. destruct (IsStake event); [apply IH|].
  destruct (IsUnstake event); [|apply IH].
  unfold removeStake. destruct (stakeMap !! From event); [apply IH | done].
Qed.

Lemma resolveEntries_spec s entries acc w :
  resolveEntries s entries acc w
  = (Return (acc ++ (settled s <$> entries)),
     {| store := store w;
        registryCalls :=
          registryCalls w ++ (filter (λ e, BlsKey e.2 = None) entries).*1 |}).
Proof.
  revert acc w. induction entries as [|[addr data] entries IH]; intros acc w; simpl.
  { rewrite !app_nil_r. by destruct w. }
  assert (Hact : ∀ v, {| Address := Address v; BlsKey := BlsKey v;
                         VotingPower := VotingPower v;
                         IsActive := 0 <? Cmp (VotingPower v) bigZero |}
                      = {| Address := Address v; BlsKey := BlsKey v;
                           VotingPower := VotingPower v;
                           IsActive := bool_decide (0 < VotingPower v) |}).
  { intros v. by rewrite Cmp_bigZero_ltb, ltb_bool_decide. }
  unfold settled at 1. simpl. destruct (BlsKey data) as [k|] eqn:Ek.
  - rewrite filter_cons_False by (simpl; congruence).
    rewrite IH, Hact, <-app_assoc. done.
  - rewrite filter_cons_True by done. rewrite getNewValidatorInfo_run.
    destruct (rootChainRelayer s addr) as [err|pubKey];
      rewrite IH, Hact; simpl; by rewrite <-!app_assoc.
Qed.

Lemma PostBlock_run ParseLog rng s req w events stakeMap :
  getTransferEventsFromReceipts ParseLog s (Receipts req) = Return events →
  events ≠ [] →
  loadFault (store w) = None →
  applyEvents (newValidatorStakeMap (snapshot (store w))) events = Return stakeMap →
  PostBlock ParseLog rng s req w
  = insertFullValidatorSet (settled s <$> rng stakeMap)
      {| store := store w;
         registryCalls :=
           registryCalls w ++ (filter (λ e, BlsKey e.2 = None) (rng stakeMap)).*1 |}.
Proof.
  intros Hev Hne Hload Happ. unfold PostBlock.
  unfold mbind, M_bind, lift. rewrite Hev.
  rewrite decide_False by (by destruct events).
  unfold getFullValidatorSet. rewrite Hload, Happ.
  by rewrite resolveEntries_spec.
Qed.

Lemma settled_IsActive s entry :
  IsActive (settled s entry) = bool_decide (0 < VotingPower (settled s entry)).
Proof. done. Qed.

Lemma settled_unresolved s addr data err :
  BlsKey data = None → rootChainRelayer s addr = inl err →
  settled s (addr, data)
  = {| Address := Address data; BlsKey := None; VotingPower := VotingPower data;
       IsActive := bool_decide (0 < VotingPower data) |}.
Proof. intros Hk Hr. unfold settled. simpl. by rewrite Hk, Hr, Hk. Qed.

Lemma PostBlock_Fail ParseLog rng s req w e :
  (PostBlock ParseLog rng s req w).1 = Fail e →
  getTransferEventsFromReceipts ParseLog s (Receipts req) = Fail e
  ∨ loadFault (store w) = Some e
  ∨ saveFault (store w) = Some e.
Proof.
  destruct (getTransferEventsFromReceipts ParseLog s (Receipts req))
    as [events|e'|p] eqn:Hev.
  - destruct (decide (events = [])) as [->|Hne].
    { unfold PostBlock, mbind, M_bind, lift. rewrite Hev. done. }
    destruct (loadFault (store w)) as [err|] eqn:Hload.
    { unfold PostBlock, mbind, M_bind, lift, getFullValidatorSet.
      rewrite Hev, decide_False by (by destruct events). rewrite Hload.
      simpl. intros [= ->]. auto. }
    destruct (applyEvents (newValidatorStakeMap (snapshot (store w))) events)
      as [stakeMap|e'|p] eqn:Happ.
    + rewrite (PostBlock_run _ _ _ _ _ events stakeMap) by done.
      unfold insertFullValidatorSet. simpl.
      destruct (saveFault (store w)); simpl; [|done]. intros [= ->]. auto.
    + by apply applyEvents_no_Fail in Happ.
    + unfold PostBlock, mbind, M_bind, lift, getFullValidatorSet.
      rewrite Hev, decide_False by (by destruct events).
      by rewrite Hload, Happ.
  - unfold PostBlock, mbind, M_bind, lift. rewrite Hev. simpl.
    intros [= ->]. auto.
  - unfold PostBlock, mbind, M_bind, lift. by rewrite Hev.
Qed.

(** C7. When the events of a block are extracted and applied and the store
    has no fault, [PostBlock] returns nil whatever the registry answers, and
    the new snapshot holds one settled entry per entry of the stake map,
    each with [IsActive] recomputed from its voting power; an entry without
    a key whose registry lookup fails is in the snapshot with its voting
    power, no key and the recomputed [IsActive]. On any request, [PostBlock]
    returns an error only when the extraction of events, the load of the
    full set or its insertion returns that error. *)
Theorem PostBlock_tolerates_lookup_failure ParseLog rng s req w events stakeMap :
  RangeOrder rng →
  getTransferEventsFromReceipts ParseLog s (Receipts req) = Return events →
  events ≠ [] →
  loadFault (store w) = None → saveFault (store w) = None →
  applyEvents (newValidatorStakeMap (snapshot (store w))) events = Return stakeMap →
  (PostBlock ParseLog rng s req w).1 = Return tt
  ∧ snapshot (store (PostBlock ParseLog rng s req w).2)
    ≡ₚ settled s <$> map_to_list stakeMap
  ∧ (∀ v, v ∈ snapshot (store (PostBlock ParseLog rng s req w).2) →
          IsActive v = bool_decide (0 < VotingPower v))
  ∧ (∀ addr data err,
       stakeMap !! addr = Some data → BlsKey data = None →
       rootChainRelayer s addr = inl err →
       {| Address := Address data; BlsKey := None;
          VotingPower := VotingPower data;
          IsActive := bool_decide (0 < VotingPower data) |}
       ∈ snapshot (store (PostBlock ParseLog rng s req w).2))
  ∧ (∀ req0 w0 e,
       (PostBlock ParseLog rng s req0 w0).1 = Fail e →
       getTransferEventsFromReceipts ParseLog s (Receipts req0) = Fail e
       ∨ loadFault (store w0) = Some e
       ∨ saveFault (store w0) = Some e).
Proof.
  intros Hr Hev Hne Hload Hsave Happ.
  rewrite (PostBlock_run _ _ _ _ _ events stakeMap) by done.
  unfold insertFullValidatorSet. simpl. rewrite Hsave. simpl. split_and!.
  - done.
  - by rewrite (Hr stakeMap).
  - intros v (entry & -> & _)%list_elem_of_fmap. apply settled_IsActive.
  - intros addr data err Hl Hk Herr.
    rewrite <-(settled_unresolved s addr data err) by done.
    apply list_elem_of_fmap_2. rewrite (Hr stakeMap).
    by apply elem_of_map_to_list.
  - intros req0 w0 e. apply PostBlock_Fail.
Qed.

(** ** Applying a delta *)






Lemma next_elem_lookup rng sc maxSize next v :
  RangeOrder rng → keyed sc →
  getActiveValidators rng sc maxSize = Return next →
  v ∈ next → sc !! Address v = Some v.
Proof.
  intros Hr Hk [_ ->]%getActiveValidators_Return Hv.
  assert (Hin : v ∈ activeSorted rng sc).
  { eapply elem_of_sublist; [done | apply sublist_take]. }
  apply activeSorted_elem_of in Hin as [[a Ha] _]; [|done].
  by rewrite (Hk a v Ha).
Qed.


(** ** The properties at concrete inputs *)

Lemma forwards_RangeOrder : RangeOrder Sample.forwards.
Proof. intros m. reflexivity. Qed.

Lemma backwards_RangeOrder : RangeOrder Sample.backwards.
Proof. intros m. apply reverse_Permutation. Qed.

Lemma committee_NoDup : NoDup (Address <$> Sample.committee).
Proof. apply (bool_decide_unpack _). vm_compute. exact I. Qed.


Example getActiveValidators_capped :
  getActiveValidators Sample.forwards (newValidatorStakeMap Sample.fullSet) 3
  = Return Sample.nextCommittee.
Proof. vm_compute. reflexivity. Qed.

Example getActiveValidators_all :
  getActiveValidators Sample.backwards (newValidatorStakeMap Sample.fullSet) 10
  = Return (Sample.nextCommittee ++ [Sample.validator Sample.B (Some (Sample.key 20)) 50]).
Proof. vm_compute. reflexivity. Qed.

Example getActiveValidators_negative_size :
  getActiveValidators Sample.forwards (newValidatorStakeMap Sample.fullSet) (-1)
  = Panic SliceBoundsOutOfRange.
Proof. vm_compute. reflexivity. Qed.

Example UpdateValidatorSet_sample :
  UpdateValidatorSet Sample.forwards Sample.manager 1 Sample.committee Sample.world
  = (Return Sample.delta, Sample.worldAfter).
Proof. vm_compute. reflexivity. Qed.

Example UpdateValidatorSet_lookup_fails :
  UpdateValidatorSet Sample.forwards Sample.manager 1 Sample.committee Sample.worldF
  = (Fail (ErrRetrieveValidatorData Sample.F (ErrExternal 404)),
     {| store := store Sample.worldF; registryCalls := [Sample.F] |}).
Proof. vm_compute. reflexivity. Qed.

Example PostBlock_sample :
  (PostBlock Sample.parseLog Sample.forwards Sample.manager Sample.block
     Sample.world).1 = Return tt
  ∧ Sample.validator Sample.F None 30
    ∈ snapshot (store (PostBlock Sample.parseLog Sample.forwards Sample.manager
                         Sample.block Sample.world).2)
  ∧ Sample.validator Sample.C (Some (Sample.key 30)) 75
    ∈ snapshot (store (PostBlock Sample.parseLog Sample.forwards Sample.manager
                         Sample.block Sample.world).2).
Proof.
  split_and!; [vm_compute; reflexivity | |];
    apply (bool_decide_unpack _); vm_compute; exact I.
Qed.

Example getTransferEventsFromReceipts_sample :
  getTransferEventsFromReceipts Sample.parseLog Sample.manager
    (Receipts Sample.block)
  = Return Sample.stakeEvents.
Proof. vm_compute. reflexivity. Qed.

Example getTransferEventsFromReceipts_skips :
  getTransferEventsFromReceipts Sample.parseLog Sample.manager
    [{| Status := Some ReceiptFailed; Logs := Logs Sample.failedReceipt |};
     {| Status := None; Logs := Logs Sample.failedReceipt |};
     {| Status := Some ReceiptSuccess;
        Logs := [{| Log_Address := Sample.A; Topics := []; Data := [Byte.x0f] |};
                 {| Log_Address := Sample.contract; Topics := [];
                    Data := [Byte.x0a; Byte.x0b] |}] |}]
  = Return [].
Proof. vm_compute. reflexivity. Qed.

Example getTransferEventsFromReceipts_parse_error :
  getTransferEventsFromReceipts Sample.parseLog Sample.manager
    (Receipts Sample.block
     ++ [{| Status := Some ReceiptSuccess; Logs := Logs Sample.failedReceipt |}])
  = Fail (ErrExternal 22).
Proof. vm_compute. reflexivity. Qed.

Example removeStake_absent :
  removeStake (newValidatorStakeMap Sample.fullSet) Sample.F 10
  = Panic NilDereference.
Proof. vm_compute. reflexivity. Qed.

Example removeStake_to_zero :
  ∃ sc, removeStake (newValidatorStakeMap Sample.fullSet) Sample.B 50 = Return sc
        ∧ sc !! Sample.B = Some (Sample.validator Sample.B (Some (Sample.key 20)) 0).
Proof. eexists. split; [reflexivity|]. vm_compute. reflexivity. Qed.


Lemma getActiveValidators_sorted_capped_witness :
  RangeOrder Sample.forwards
  ∧ keyed (newValidatorStakeMap Sample.fullSet)
  ∧ 0 ≤ 3
  ∧ ∃ active,
      (∀ v, v ∈ active
            ↔ (∃ a, newValidatorStakeMap Sample.fullSet !! a = Some v)
              ∧ 0 < VotingPower v)
      ∧ NoDup active
      ∧ StronglySorted committeeBefore active
      ∧ getActiveValidators Sample.forwards (newValidatorStakeMap Sample.fullSet) 3
        = Return (take (Z.to_nat 3) active)
      ∧ Z.of_nat (length (take (Z.to_nat 3) active)) ≤ 3
      ∧ (Z.of_nat (length active) ≤ 3 → take (Z.to_nat 3) active = active).
Proof.
  split_and!;
    [apply forwards_RangeOrder | apply newValidatorStakeMap_keyed | lia |].
  apply (getActiveValidators_sorted_capped Sample.forwards
           (newValidatorStakeMap Sample.fullSet) 3);
    [apply forwards_RangeOrder | apply newValidatorStakeMap_keyed | lia].
Defined.

Lemma UpdateValidatorSet_delta_witness :
  RangeOrder Sample.forwards
  ∧ NoDup (Address <$> Sample.committee)
  ∧ UpdateValidatorSet Sample.forwards Sample.manager 1 Sample.committee
      Sample.world = (Return Sample.delta, Sample.worldAfter)
  ∧ ∃ next,
      getActiveValidators Sample.forwards
        (newValidatorStakeMap (snapshot (store Sample.world)))
        (maxValidatorSetSize Sample.manager) = Return next
      ∧ (∀ i, bitmap.IsSet (Removed Sample.delta) i = true
              ↔ ∃ v, Sample.committee !! N.to_nat i = Some v
                     ∧ Address v ∉ Address <$> next)
      ∧ (∀ v, v ∈ Updated Sample.delta
              ↔ v ∈ next ∧ ∃ o, o ∈ Sample.committee ∧ Address o = Address v
                                 ∧ VotingPower o ≠ VotingPower v)
      ∧ (∀ a, a ∈ Address <$> Added Sample.delta
              ↔ a ∈ Address <$> next ∧ a ∉ Address <$> Sample.committee)
      ∧ (∀ x, x ∈ Added Sample.delta →
              ∃ v, v ∈ next ∧ Address x = Address v
                   ∧ VotingPower x = VotingPower v
                   ∧ is_Some (BlsKey x)
                   ∧ (is_Some (BlsKey v) → x = v))
      ∧ (∀ i o v, Sample.committee !! i = Some o → v ∈ next →
                  Address o = Address v → VotingPower o = VotingPower v →
                  bitmap.IsSet (Removed Sample.delta) (N.of_nat i) = false
                  ∧ (Address v ∉ Address <$> Added Sample.delta)
                  ∧ (Address v ∉ Address <$> Updated Sample.delta)).
Proof.
  split_and!;
    [apply forwards_RangeOrder | apply committee_NoDup
    | vm_compute; reflexivity |].
  apply (UpdateValidatorSet_delta Sample.forwards Sample.manager 1
           Sample.committee Sample.world Sample.delta Sample.worldAfter);
    [apply forwards_RangeOrder | apply committee_NoDup | vm_compute; reflexivity].
Defined.

Lemma UpdateValidatorSet_deterministic_witness :
  RangeOrder Sample.forwards ∧ RangeOrder Sample.backwards
  ∧ store Sample.world = store Sample.worldAfter
  ∧ (UpdateValidatorSet Sample.forwards Sample.manager 1 Sample.committee
       Sample.world).1
    = (UpdateValidatorSet Sample.backwards Sample.manager 1 Sample.committee
         Sample.worldAfter).1.
Proof.
  split_and!;
    [apply forwards_RangeOrder | apply backwards_RangeOrder | reflexivity |].
  apply (UpdateValidatorSet_deterministic Sample.forwards Sample.backwards
           Sample.manager 1 Sample.committee Sample.world Sample.worldAfter);
    [apply forwards_RangeOrder | apply backwards_RangeOrder | reflexivity].
Defined.


Lemma UpdateValidatorSet_lookups_witness :
  RangeOrder Sample.forwards
  ∧ loadFault (store Sample.worldF) = None
  ∧ getActiveValidators Sample.forwards
      (newValidatorStakeMap (snapshot (store Sample.worldF)))
      (maxValidatorSetSize Sample.manager) = Return Sample.nextCommitteeF
  ∧ ∃ looked,
      registryCalls (UpdateValidatorSet Sample.forwards Sample.manager 1
                       Sample.committee Sample.worldF).2
      = registryCalls Sample.worldF ++ (Address <$> looked)
      ∧ looked `prefix_of`
          filter (λ v, (Address v ∉ Address <$> Sample.committee)
                       ∧ BlsKey v = None) Sample.nextCommitteeF
      ∧ NoDup (Address <$> looked)
      ∧ (∀ o, o ∈ Sample.committee → Address o ∉ Address <$> looked)
      ∧ match (UpdateValidatorSet Sample.forwards Sample.manager 1
                 Sample.committee Sample.worldF).1 with
        | Return delta =>
            looked = filter (λ v, (Address v ∉ Address <$> Sample.committee)
                                  ∧ BlsKey v = None) Sample.nextCommitteeF
            ∧ Forall (λ v, ∃ k, rootChainRelayer Sample.manager (Address v) = inr k)
                (filter (λ v, (Address v ∉ Address <$> Sample.committee)
                              ∧ BlsKey v = None) Sample.nextCommitteeF)
        | Fail e =>
            ∃ pre v err,
              looked = pre ++ [v]
              ∧ Forall (λ v, ∃ k, rootChainRelayer Sample.manager (Address v) = inr k)
                  pre
              ∧ rootChainRelayer Sample.manager (Address v) = inl err
              ∧ e = ErrRetrieveValidatorData (Address v) err
        | Panic _ => False
        end
      ∧ ((∃ v err,
            v ∈ filter (λ v, (Address v ∉ Address <$> Sample.committee)
                             ∧ BlsKey v = None) Sample.nextCommitteeF
            ∧ rootChainRelayer Sample.manager (Address v) = inl err) →
         ∃ e, (UpdateValidatorSet Sample.forwards Sample.manager 1
                 Sample.committee Sample.worldF).1 = Fail e).
Proof.
  split_and!;
    [apply forwards_RangeOrder | reflexivity | vm_compute; reflexivity |].
  apply (UpdateValidatorSet_lookups Sample.forwards Sample.manager 1
           Sample.committee Sample.worldF Sample.nextCommitteeF);
    [apply forwards_RangeOrder | reflexivity | vm_compute; reflexivity].
Defined.

Lemma PostBlock_tolerates_lookup_failure_witness :
  RangeOrder Sample.forwards
  ∧ getTransferEventsFromReceipts Sample.parseLog Sample.manager
      (Receipts Sample.block) = Return Sample.stakeEvents
  ∧ Sample.stakeEvents ≠ []
  ∧ loadFault (store Sample.world) = None
  ∧ saveFault (store Sample.world) = None
  ∧ applyEvents (newValidatorStakeMap (snapshot (store Sample.world)))
      Sample.stakeEvents = Return Sample.stakeMapAfter
  ∧ (PostBlock Sample.parseLog Sample.forwards Sample.manager Sample.block
       Sample.world).1 = Return tt
  ∧ snapshot (store (PostBlock Sample.parseLog Sample.forwards Sample.manager
                       Sample.block Sample.world).2)
    ≡ₚ settled Sample.manager <$> map_to_list Sample.stakeMapAfter
  ∧ (∀ v, v ∈ snapshot (store (PostBlock Sample.parseLog Sample.forwards
                                 Sample.manager Sample.block Sample.world).2) →
          IsActive v = bool_decide (0 < VotingPower v))
  ∧ (∀ addr data err,
       Sample.stakeMapAfter !! addr = Some data → BlsKey data = None →
       rootChainRelayer Sample.manager addr = inl err →
       {| Address := Address data; BlsKey := None;
          VotingPower := VotingPower data;
          IsActive := bool_decide (0 < VotingPower data) |}
       ∈ snapshot (store (PostBlock Sample.parseLog Sample.forwards
                            Sample.manager Sample.block Sample.world).2))
  ∧ (∀ req0 w0 e,
       (PostBlock Sample.parseLog Sample.forwards Sample.manager req0 w0).1
       = Fail e →
       getTransferEventsFromReceipts Sample.parseLog Sample.manager
         (Receipts req0) = Fail e
       ∨ loadFault (store w0) = Some e
       ∨ saveFault (store w0) = Some e).
Proof.
  assert (Hev : getTransferEventsFromReceipts Sample.parseLog Sample.manager
                  (Receipts Sample.block) = Return Sample.stakeEvents)
    by (vm_compute; reflexivity).
  assert (Hne : Sample.stakeEvents ≠ []) by discriminate.
  assert (Happ : applyEvents (newValidatorStakeMap (snapshot (store Sample.world)))
                   Sample.stakeEvents = Return Sample.stakeMapAfter)
    by reflexivity.
  split; [apply forwards_RangeOrder|].
  split; [exact Hev|]. split; [exact Hne|].
  split; [reflexivity|]. split; [reflexivity|]. split; [exact Happ|].
  exact (PostBlock_tolerates_lookup_failure Sample.parseLog Sample.forwards
           Sample.manager Sample.block Sample.world Sample.stakeEvents
           Sample.stakeMapAfter forwards_RangeOrder Hev Hne eq_refl eq_refl Happ).
Defined.

(** * Further properties of the stake manager *)

(** ** The comparator and the stake map *)

(** X1. The comparison function given to [sort.Slice] is a strict order:
    it never puts a validator before itself, it is transitive, and two
    validators are tied (neither before the other) exactly when they have
    the same voting power and the same address. *)
Theorem less_strict_order :
  (∀ v, less v v = false)
  ∧ (∀ v1 v2 v3, less v1 v2 = true → less v2 v3 = true → less v1 v3 = true)
  ∧ (∀ v1 v2, less v1 v2 = false ∧ less v2 v1 = false
              ↔ VotingPower v1 = VotingPower v2 ∧ Address v1 = Address v2).
Proof.
  split_and!.
  - intros v. apply not_true_is_false. rewrite less_committeeBefore.
    apply committeeBefore_irrefl.
  - intros v1 v2 v3. rewrite !less_committeeBefore. apply committeeBefore_trans.
  - intros v1 v2. rewrite <-!not_true_iff_false, !less_committeeBefore.
    unfold committeeBefore. split.
    + intros [H1 H2].
      assert (VotingPower v1 = VotingPower v2) as Hp by lia.
      split; [done|].
      destruct (lexLt_trichotomy (Address v1) (Address v2)) as [?|[?|?]];
        [done | exfalso; apply H1; by right | exfalso; apply H2; by right].
    + intros [Hp Ha]. rewrite Hp, Ha.
      split; intros [?|[_ ?%lexLt_irrefl]]; done || lia.
Qed.

Lemma last_filter_snoc {A} (P : A → Prop) `{∀ x, Decision (P x)} (l : list A) x :
  last (filter P (l ++ [x])) = if decide (P x) then Some x else last (filter P l).
Proof.
  rewrite filter_app, filter_cons, filter_nil. case_decide.
  - by rewrite last_snoc.
  - by rewrite app_nil_r.
Qed.

(** X2. The stake map built from a validator set holds, under an address,
    the last validator of the set with that address, and nothing under an
    address the set lacks. *)
Theorem newValidatorStakeMap_lookup validatorSet a :
  newValidatorStakeMap validatorSet !! a
  = last (filter (λ v, Address v = a) validatorSet).
Proof.
  induction validatorSet as [|v l IH] using rev_ind; [done|].
  rewrite newValidatorStakeMap_snoc, last_filter_snoc, lookup_insert.
  by case_decide.
Qed.

(** X3. A stake followed by an unstake of the same amount for the same
    address never faults and leaves every other entry alone; the entry of
    the address has its old voting power, address and key and a recomputed
    [IsActive], and for an address the map did not hold it stays in the map
    with voting power zero, no key, inactive. *)
Theorem addStake_removeStake sc address amount :
  removeStake (addStake sc address amount) address amount
  = Return (<[address :=
                match sc !! address with
                | Some v => {| Address := Address v; BlsKey := BlsKey v;
                               VotingPower := VotingPower v;
                               IsActive := bool_decide (0 < VotingPower v) |}
                | None => {| Address := address; BlsKey := None;
                             VotingPower := 0; IsActive := false |}
                end]> sc).
Proof.
  unfold removeStake, addStake.
  destruct (sc !! address) as [v|] eqn:E; rewrite lookup_insert_eq; simpl;
    rewrite insert_insert_eq, Cmp_bigZero_ltb, ltb_bool_decide.
  - by replace (VotingPower v + amount - amount) with (VotingPower v) by lia.
  - by rewrite Z.sub_diag.
Qed.

Lemma powerOf_addStake sc address amount a :
  powerOf (addStake sc address amount) a
  = powerOf sc a + (if decide (address = a) then amount else 0).
Proof.
  unfold powerOf, addStake. case_decide as Ha.
  - subst. destruct (sc !! a) as [v|] eqn:E; rewrite lookup_insert_eq; simpl; lia.
  - destruct (sc !! address); rewrite lookup_insert_ne by done; lia.
Qed.

Lemma powerOf_removeStake sc address amount sc' a :
  removeStake sc address amount = Return sc' →
  powerOf sc' a = powerOf sc a - (if decide (address = a) then amount else 0).
Proof.
  unfold powerOf, removeStake.
  destruct (sc !! address) as [v|] eqn:E; [|done]. intros [= <-].
  case_decide as Ha.
  - subst. by rewrite lookup_insert_eq, E.
  - rewrite lookup_insert_ne by done. lia.
Qed.

Lemma stakedTo_cons a event events :
  stakedTo a (event :: events)
  = (if decide (IsStake event = true ∧ To event = a) then Value event else 0)
    + stakedTo a events.
Proof. done. Qed.

Lemma unstakedFrom_cons a event events :
  unstakedFrom a (event :: events)
  = (if decide (IsStake event = false ∧ IsUnstake event = true ∧ From event = a)
     then Value event else 0)
    + unstakedFrom a events.
Proof. done. Qed.

(** X4. When a batch of events applies, the voting power of every address
    is its power before, plus the amounts staked to it, minus the amounts
    unstaked from it; an address without an entry counts as power zero. *)
Theorem applyEvents_accounting sc events sc' a :
  applyEvents sc events = Return sc' →
  powerOf sc' a = powerOf sc a + stakedTo a events - unstakedFrom a events.
Proof.
  revert sc. induction events as [|event events IH]; intros sc.
  { intros [= <-]. unfold stakedTo, unstakedFrom. simpl. lia. }
  rewrite stakedTo_cons, unstakedFrom_cons. simpl.
  destruct (IsStake event) eqn:Hs.
  - intros H. rewrite (IH _ H), powerOf_addStake.
    repeat case_decide; destruct_and?; simplify_eq; try lia; naive_solver.
  - destruct (IsUnstake event) eqn:Hu.
    + destruct (removeStake sc (From event) (Value event)) as [sc1|e|p] eqn:Hr;
        [|done..].
      intros H. rewrite (IH _ H), (powerOf_removeStake _ _ _ _ _ Hr).
      repeat case_decide; destruct_and?; simplify_eq; try lia; naive_solver.
    + intros H. rewrite (IH _ H).
      repeat case_decide; destruct_and?; simplify_eq; lia.
Qed.

Lemma addStake_lookup_inv sc address amount a v' :
  addStake sc address amount !! a = Some v' →
  (a ≠ address ∧ sc !! a = Some v')
  ∨ (a = address
     ∧ ∃ v, sc !! a = Some v
            ∧ v' = {| Address := Address v; BlsKey := BlsKey v;
                      VotingPower := VotingPower v + amount;
                      IsActive := bool_decide (0 < VotingPower v + amount) |})
  ∨ (a = address ∧ sc !! a = None
     ∧ v' = {| Address := address; BlsKey := None; VotingPower := amount;
               IsActive := true |}).
Proof.
  destruct (decide (a = address)) as [->|Hne].
  - destruct (sc !! address) as [v|] eqn:E.
    + rewrite (addStake_existing _ _ _ _ E). intros [= <-]. right. left. eauto.
    + rewrite (addStake_new _ _ _ E). intros [= <-]. right. right. eauto.
  - rewrite addStake_other by done. intros H. by left.
Qed.

Lemma removeStake_lookup_inv sc address amount sc' a v' :
  removeStake sc address amount = Return sc' → sc' !! a = Some v' →
  (a ≠ address ∧ sc !! a = Some v')
  ∨ (a = address
     ∧ ∃ v, sc !! a = Some v
            ∧ v' = {| Address := Address v; BlsKey := BlsKey v;
                      VotingPower := VotingPower v - amount;
                      IsActive := bool_decide (0 < VotingPower v - amount) |}).
Proof.
  unfold removeStake. destruct (sc !! address) as [v|] eqn:E; [|done].
  intros [= <-]. rewrite lookup_insert. case_decide as Ha.
  - subst. rewrite Cmp_bigZero_ltb, ltb_bool_decide. intros [= <-].
    right. eauto.
  - intros H. left. split; [congruence | done].
Qed.

Lemma addStake_is_Some sc address amount a :
  is_Some (addStake sc address amount !! a) ↔ is_Some (sc !! a) ∨ a = address.
Proof.
  destruct (decide (a = address)) as [->|Hne].
  - split; [by right|]. intros _. unfold addStake.
    destruct (sc !! address); by rewrite lookup_insert_eq.
  - rewrite addStake_other by done. tauto.
Qed.

Lemma removeStake_is_Some sc address amount sc' a :
  removeStake sc address amount = Return sc' →
  is_Some (sc' !! a) ↔ is_Some (sc !! a).
Proof.
  unfold removeStake. destruct (sc !! address) as [v|] eqn:E; [|done].
  intros [= <-]. rewrite lookup_insert. case_decide; [|done].
  subst. rewrite E. split; eauto.
Qed.

(** X5. Applying a batch of events never deletes an entry and never
    changes the address or the key of one: every address of the map is
    still there with the same key, and an address that is new has no key
    and was the receiver of a stake event of the batch. *)
Theorem applyEvents_keeps_entries sc events sc' :
  applyEvents sc events = Return sc' →
  (∀ a v, sc !! a = Some v →
          ∃ v', sc' !! a = Some v' ∧ Address v' = Address v
                ∧ BlsKey v' = BlsKey v)
  ∧ (∀ a v', sc' !! a = Some v' → sc !! a = None →
             Address v' = a ∧ BlsKey v' = None
             ∧ ∃ event, event ∈ events ∧ IsStake event = true ∧ To event = a).
Proof.
  revert sc. induction events as [|event events IH]; intros sc; simpl.
  { intros [= <-]. split; [by eauto | congruence]. }
  assert (Hstep : ∀ sc1,
    (∀ a v, sc !! a = Some v →
            ∃ v1, sc1 !! a = Some v1 ∧ Address v1 = Address v
                  ∧ BlsKey v1 = BlsKey v) →
    (∀ a v1, sc1 !! a = Some v1 → sc !! a = None →
             Address v1 = a ∧ BlsKey v1 = None
             ∧ IsStake event = true ∧ To event = a) →
    applyEvents sc1 events = Return sc' →
    (∀ a v, sc !! a = Some v →
            ∃ v', sc' !! a = Some v' ∧ Address v' = Address v
                  ∧ BlsKey v' = BlsKey v)
    ∧ (∀ a v', sc' !! a = Some v' → sc !! a = None →
               Address v' = a ∧ BlsKey v' = None
               ∧ ∃ e, e ∈ event :: events ∧ IsStake e = true ∧ To e = a)).
  { intros sc1 Hkeep Hnew [IH1 IH2]%IH. split.
    - intros a v (v1 & H1 & Ha & Hk)%Hkeep.
      destruct (IH1 a v1 H1) as (v' & ? & ? & ?). exists v'.
      split_and!; congruence.
    - intros a v' Hv' Hnone. destruct (sc1 !! a) as [v1|] eqn:E1.
      + destruct (Hnew a v1 E1 Hnone) as (Ha & Hk & Hs & Ht).
        destruct (IH1 a v1 E1) as (v'' & Hv'' & ? & ?).
        assert (v'' = v') as -> by congruence.
        split_and!; [congruence..|]. exists event. split; [by left | done].
      + destruct (IH2 a v' Hv' E1) as (? & ? & e & ? & ? & ?).
        split_and!; [done..|]. exists e. split; [by right | done]. }
  destruct (IsStake event) eqn:Hs.
  - apply Hstep.
    + intros a v Hv. destruct (decide (a = To event)) as [->|Hne].
      * rewrite (addStake_existing _ _ _ _ Hv). by eexists.
      * rewrite addStake_other by done. by eexists.
    + intros a v1 [[_ ?]|[(_ & v & ? & _)|(-> & _ & ->)]]%addStake_lookup_inv Hnone;
        [congruence..|done].
  - destruct (IsUnstake event) eqn:Hu.
    + destruct (removeStake sc (From event) (Value event)) as [sc1|e|p] eqn:Hr;
        [|done..].
      apply Hstep.
      * intros a v Hv.
        pose proof (proj2 (removeStake_is_Some _ _ _ _ a Hr)) as [v1 Hv1]; [by eauto|].
        exists v1. split; [done|].
        destruct (removeStake_lookup_inv _ _ _ _ _ _ Hr Hv1)
          as [[_ ?]|(_ & v0 & ? & ->)]; simplify_eq; done.
      * intros a v1 Hv1 Hnone.
        pose proof (proj1 (removeStake_is_Some _ _ _ _ a Hr)) as [? ?]; [by eauto|].
        congruence.
    + apply Hstep; [by eauto | congruence].
Qed.

Lemma applyEvents_outcome sc events :
  applyEvents sc events = Panic NilDereference
  ∨ ∃ sc', applyEvents sc events = Return sc'.
Proof.
  revert sc. induction events as [|event events IH]; intros sc; simpl; [by eauto|].
  destruct (IsStake event); [apply IH|].
  destruct (IsUnstake event); [|apply IH].
  unfold removeStake. destruct (sc !! From event); [apply IH | by left].
Qed.

(** X6. A batch of events applies without fault exactly when every
    unstake event names an address that the map holds or that an earlier
    stake event of the batch created; otherwise the batch ends in the nil
    dereference of [removeStake]. *)
Theorem applyEvents_Return_iff sc events :
  ((∃ sc', applyEvents sc events = Return sc')
   ↔ ∀ pre event post,
       events = pre ++ event :: post →
       IsStake event = false → IsUnstake event = true →
       is_Some (sc !! From event)
       ∨ ∃ e, e ∈ pre ∧ IsStake e = true ∧ To e = From event)
  ∧ ((∃ sc', applyEvents sc events = Return sc')
     ∨ applyEvents sc events = Panic NilDereference).
Proof.
  split; [|destruct (applyEvents_outcome sc events); auto].
  revert sc. induction events as [|ev events IH]; intros sc.
  { split; [|by eauto]. intros _ pre event post H. by destruct pre. }
  assert (Hsplit : ∀ (sc1 : validatorStakeMap),
    (∀ a, is_Some (sc1 !! a)
          ↔ is_Some (sc !! a) ∨ (IsStake ev = true ∧ a = To ev)) →
    (IsStake ev = false → IsUnstake ev = true → is_Some (sc !! From ev)) →
    ((∀ pre event post,
        events = pre ++ event :: post →
        IsStake event = false → IsUnstake event = true →
        is_Some (sc1 !! From event)
        ∨ ∃ e, e ∈ pre ∧ IsStake e = true ∧ To e = From event)
     ↔ ∀ pre event post,
         ev :: events = pre ++ event :: post →
         IsStake event = false → IsUnstake event = true →
         is_Some (sc !! From event)
         ∨ ∃ e, e ∈ pre ∧ IsStake e = true ∧ To e = From event)).
  { intros sc1 Hdom Hhead. split.
    - intros H [|e pre] event post Heq Hs Hu; simplify_eq/=.
      + left. by apply Hhead.
      + destruct (H pre event post eq_refl Hs Hu) as [Hin|(e' & ? & ? & ?)].
        * apply Hdom in Hin as [?|[? ?]]; [by left|].
          right. exists e. split_and!; [by left | done | done].
        * right. exists e'. split_and!; [by right | done | done].
    - intros H pre event post -> Hs Hu.
      destruct (H (ev :: pre) event post eq_refl Hs Hu) as [Hin|(e' & Hin & ? & ?)].
      + left. apply Hdom. by left.
      + apply elem_of_cons in Hin as [->|Hin].
        * left. apply Hdom. by right.
        * right. by exists e'. }
  simpl. destruct (IsStake ev) eqn:Hs.
  - rewrite IH. apply Hsplit; [|done].
    intros a. rewrite addStake_is_Some. intuition auto.
  - destruct (IsUnstake ev) eqn:Hu.
    + destruct (sc !! From ev) as [v|] eqn:E.
      * destruct (removeStake sc (From ev) (Value ev)) as [sc1|e|p] eqn:Hr;
          [|unfold removeStake in Hr; by rewrite E in Hr..].
        rewrite IH. apply Hsplit; [|by eauto].
        intros a. rewrite (removeStake_is_Some _ _ _ _ a Hr).
        intuition discriminate.
      * unfold removeStake. rewrite E. split; [by intros [? ?]|].
        intros H. destruct (H [] ev events eq_refl Hs Hu) as [[? ?]|(e & He & _)].
        -- congruence.
        -- by apply elem_of_nil in He.
    + rewrite IH. apply Hsplit; [intros a; intuition discriminate | done].
Qed.

(** X7. A batch of events keeps the invariant of the stake map: when
    every entry has [IsActive] equal to [VotingPower > 0] and every stake
    event of the batch has a positive amount, every entry of the map after
    the batch has it too. *)
Theorem applyEvents_IsActive sc events sc' :
  (∀ a v, sc !! a = Some v → IsActive v = bool_decide (0 < VotingPower v)) →
  (∀ event, event ∈ events → IsStake event = true → 0 < Value event) →
  applyEvents sc events = Return sc' →
  ∀ a v, sc' !! a = Some v → IsActive v = bool_decide (0 < VotingPower v).
Proof.
  revert sc. induction events as [|event events IH]; intros sc Hinv Hpos; simpl.
  { intros [= <-]. done. }
  assert (Hpos' : ∀ e, e ∈ events → IsStake e = true → 0 < Value e).
  { intros e He. apply Hpos. by right. }
  destruct (IsStake event) eqn:Hs.
  - apply IH; [|done].
    intros a v [[_ ?]|[(_ & v0 & ? & ->)|(-> & _ & ->)]]%addStake_lookup_inv;
      [by eauto | done |]. simpl.
    rewrite bool_decide_eq_true_2; [done|]. apply Hpos; [by left | done].
  - destruct (IsUnstake event) eqn:Hu.
    + destruct (removeStake sc (From event) (Value event)) as [sc1|e|p] eqn:Hr;
        [|done..].
      apply IH; [|done]. intros a v Hv.
      destruct (removeStake_lookup_inv _ _ _ _ _ _ Hr Hv)
        as [[_ ?]|(_ & v0 & ? & ->)]; [by eauto | done].
    + by apply IH.
Qed.

(** ** Committee selection *)

(** X8. A smaller size limit selects a prefix of what a larger one
    selects: raising the limit only appends validators. *)
Theorem getActiveValidators_prefix rng sc n m :
  0 ≤ n → n ≤ m →
  ∃ small large,
    getActiveValidators rng sc n = Return small
    ∧ getActiveValidators rng sc m = Return large
    ∧ small `prefix_of` large.
Proof.
  intros Hn Hm. exists (take (Z.to_nat n) (activeSorted rng sc)),
    (take (Z.to_nat m) (activeSorted rng sc)).
  rewrite !getActiveValidators_take by lia. split_and!; [done..|].
  replace (Z.to_nat n) with (Z.to_nat n `min` Z.to_nat m)%nat by lia.
  rewrite <-take_take. apply prefix_take.
Qed.

(** X9. The cut keeps the top of the order: an active validator that is
    left out of the result comes after every validator of the result in the
    committee order. *)
Theorem getActiveValidators_top rng sc maxSize next v u a :
  RangeOrder rng → keyed sc →
  getActiveValidators rng sc maxSize = Return next →
  v ∈ next → sc !! a = Some u → 0 < VotingPower u → u ∉ next →
  committeeBefore v u.
Proof.
  intros Hr Hk [Hmax ->]%getActiveValidators_Return Hv Hu Hpos Hout.
  pose proof (activeSorted_sorted rng sc Hr Hk) as Hs.
  rewrite <-(take_drop (Z.to_nat maxSize) (activeSorted rng sc)) in Hs.
  apply StronglySorted_app in Hs as [Hs _]. apply Hs; [done|].
  assert (Hin : u ∈ activeSorted rng sc).
  { apply activeSorted_elem_of; [done|]. split; [by exists a | done]. }
  rewrite <-(take_drop (Z.to_nat maxSize) (activeSorted rng sc)) in Hin.
  by apply elem_of_app in Hin as [?|?].
Qed.

(** X10. [getActiveValidators] panics exactly when the size limit is
    negative (the slice bound is then out of range, even when nothing is
    cut), returns no error value, and returns the empty slice for the limit
    zero. *)
Theorem getActiveValidators_faults rng sc maxSize :
  (getActiveValidators rng sc maxSize = Panic SliceBoundsOutOfRange
   ↔ maxSize < 0)
  ∧ (∀ e, getActiveValidators rng sc maxSize ≠ Fail e)
  ∧ (∀ p, getActiveValidators rng sc maxSize = Panic p → p = SliceBoundsOutOfRange)
  ∧ (maxSize = 0 → getActiveValidators rng sc maxSize = Return []).
Proof.
  destruct (Z.lt_ge_cases maxSize 0) as [Hneg|Hpos].
  - rewrite getActiveValidators_negative by done.
    split_and!; [done | done | by intros p [= <-] | lia].
  - rewrite getActiveValidators_take by lia.
    split_and!; [split; [done | lia] | done | done |].
    intros ->. done.
Qed.

(** ** More on [UpdateValidatorSet] *)

Lemma classify_world s m next U A w :
  store (classify s m next U A w).2 = store w
  ∧ registryCalls w `prefix_of` registryCalls (classify s m next U A w).2.
Proof.
  pose proof (classify_spec s m next U A w) as Hs.
  destruct (classify s m next U A w) as [[[u a]|e|p] w']; [| |done]; simpl.
  - destruct Hs as (_ & _ & _ & -> & ->). split; [done|]. by eexists.
  - destruct Hs as (pre & v & post & err & _ & _ & _ & _ & -> & ->).
    split; [done|]. by eexists.
Qed.

(** X11. [UpdateValidatorSet] only reads the store: whatever its outcome,
    the store is as it was, and the registry calls made before are still
    the beginning of the log. *)
Theorem UpdateValidatorSet_reads_only rng s epoch old w :
  store (UpdateValidatorSet rng s epoch old w).2 = store w
  ∧ registryCalls w `prefix_of` registryCalls (UpdateValidatorSet rng s epoch old w).2.
Proof.
  destruct (loadFault (store w)) as [err|] eqn:Hload.
  { unfold UpdateValidatorSet, getFullValidatorSet. rewrite Hload. done. }
  destruct (getActiveValidators rng (newValidatorStakeMap (snapshot (store w)))
              (maxValidatorSetSize s)) as [next|e|p] eqn:Hnext.
  - rewrite (UpdateValidatorSet_run _ _ _ _ _ next) by done.
    pose proof (classify_world s
      (indexOld (list_to_set (Address <$> next)) 0 old ∅ bitmap.empty).1
      next [] [] w) as Hw.
    by destruct (classify _ _ _ _ _ _) as [[[u a]|e|p] w'].
  - unfold UpdateValidatorSet, getFullValidatorSet. rewrite Hload.
    unfold mbind, M_bind, mret, M_ret, lift. by rewrite Hnext.
  - unfold UpdateValidatorSet, getFullValidatorSet. rewrite Hload.
    unfold mbind, M_bind, mret, M_ret, lift. by rewrite Hnext.
Qed.

(** X12. [UpdateValidatorSet] gives up before any registry call when the
    store cannot be read (the store's error comes back wrapped with the
    epoch) and when the configured size is negative (the selection panics);
    it panics in no other case. *)
Theorem UpdateValidatorSet_aborts_early rng s epoch old w :
  (∀ err, loadFault (store w) = Some err →
          UpdateValidatorSet rng s epoch old w
          = (Fail (ErrGetFullValidatorSet epoch err), w))
  ∧ (loadFault (store w) = None → maxValidatorSetSize s < 0 →
     UpdateValidatorSet rng s epoch old w = (Panic SliceBoundsOutOfRange, w))
  ∧ ((∃ p, (UpdateValidatorSet rng s epoch old w).1 = Panic p)
     ↔ loadFault (store w) = None ∧ maxValidatorSetSize s < 0).
Proof.
  assert (H2 : loadFault (store w) = None → maxValidatorSetSize s < 0 →
     UpdateValidatorSet rng s epoch old w = (Panic SliceBoundsOutOfRange, w)).
  { intros Hload Hneg. unfold UpdateValidatorSet, getFullValidatorSet.
    rewrite Hload. unfold mbind, M_bind, mret, M_ret, lift.
    by rewrite getActiveValidators_negative. }
  split_and!; [|done|].
  - intros err Hload. unfold UpdateValidatorSet, getFullValidatorSet.
    by rewrite Hload.
  - split; [|intros [Hload Hneg]; rewrite H2 by done; by eexists].
    intros [p Hp]. destruct (loadFault (store w)) as [err|] eqn:Hload.
    { unfold UpdateValidatorSet, getFullValidatorSet in Hp. by rewrite Hload in Hp. }
    split; [done|]. destruct (Z.lt_ge_cases (maxValidatorSetSize s) 0); [done|].
    exfalso.
    rewrite (UpdateValidatorSet_run _ _ _ _ _
               (take (Z.to_nat (maxValidatorSetSize s))
                  (activeSorted rng (newValidatorStakeMap (snapshot (store w))))))
      in Hp by (done || by apply getActiveValidators_take).
    pose proof (classify_spec s
      (indexOld (list_to_set (Address <$>
         take (Z.to_nat (maxValidatorSetSize s))
           (activeSorted rng (newValidatorStakeMap (snapshot (store w))))))
         0 old ∅ bitmap.empty).1
      (take (Z.to_nat (maxValidatorSetSize s))
         (activeSorted rng (newValidatorStakeMap (snapshot (store w)))))
      [] [] w) as Hs.
    by destruct (classify _ _ _ _ _ _) as [[[u a]|e|p'] w'].
Qed.

Lemma filter_none {A} (P : A → Prop) `{∀ x, Decision (P x)} (l : list A) :
  (∀ x, x ∈ l → ¬ P x) → filter P l = [].
Proof.
  induction l as [|x l IH]; intros Hall; [done|].
  rewrite filter_cons_False by (apply Hall; by left).
  apply IH. intros y Hy. apply Hall. by right.
Qed.

Lemma indexOld_nothing_removed addressesSet i old m0 b0 :
  (∀ v, v ∈ old → Address v ∈ addressesSet) →
  (indexOld addressesSet i old m0 b0).2 = b0.
Proof.
  revert i m0. induction old as [|x old IH]; intros i m0 Hall; [done|].
  simpl. rewrite decide_True by (apply Hall; by left).
  apply IH. intros v Hv. apply Hall. by right.
Qed.

(** X13. When the current committee already is the committee that the
    store selects, the delta is empty (nothing added, nothing updated, no
    position removed) and no registry call is made. *)
Theorem UpdateValidatorSet_unchanged_committee rng s epoch old w :
  RangeOrder rng → loadFault (store w) = None →
  getActiveValidators rng (newValidatorStakeMap (snapshot (store w)))
    (maxValidatorSetSize s) = Return old →
  UpdateValidatorSet rng s epoch old w
  = (Return {| Added := []; Updated := []; Removed := bitmap.empty |}, w).
Proof.
  intros Hr Hload Hnext.
  assert (Hnd : NoDup (Address <$> old)) by (by eapply next_addresses_NoDup).
  rewrite (UpdateValidatorSet_run _ _ _ _ _ old) by done.
  rewrite indexOld_nothing_removed
    by (intros v Hv; by apply elem_of_list_to_set, list_elem_of_fmap_2).
  set (m := (indexOld (list_to_set (Address <$> old)) 0 old ∅ bitmap.empty).1).
  assert (Hnew : filter (isNewIn m) old = []).
  { apply filter_none. intros v Hv Hn.
    apply (proj1 (isNewIn_old _ _ _) Hn). by apply list_elem_of_fmap_2. }
  assert (Hchg : filter (changedIn m) old = []).
  { apply filter_none. intros v Hv.
    unfold changedIn, m. rewrite indexOld_lookup by done. by intros ?. }
  assert (Hlook : filter (needsLookup m) old = []).
  { apply filter_none. intros v Hv [Hn _].
    apply (proj1 (isNewIn_old _ _ _) Hn). by apply list_elem_of_fmap_2. }
  pose proof (classify_spec s m old [] [] w) as Hs.
  destruct (classify s m old [] [] w) as [[[u a]|e|p] w']; [| |done].
  - destruct Hs as (-> & -> & _ & Hst & Hc).
    rewrite Hnew, Hchg. rewrite Hlook, app_nil_r in Hc. simpl.
    destruct w, w'; simpl in *. by subst.
  - destruct Hs as (pre & v & post & err & Hf & _). rewrite Hlook in Hf.
    by destruct pre.
Qed.

Lemma StronglySorted_sublist {A} (R : A → A → Prop) (l1 l2 : list A) :
  l1 `sublist_of` l2 → StronglySorted R l2 → StronglySorted R l1.
Proof.
  induction 1 as [|x l1 l2 Hsub IH|x l1 l2 Hsub IH]; intros Hs; [done| |].
  - apply StronglySorted_cons in Hs as [Hx Hs]. apply StronglySorted_cons.
    split; [|by apply IH]. rewrite Forall_forall in *.
    intros y Hy. apply Hx. by eapply elem_of_sublist.
  - apply StronglySorted_cons in Hs as [_ Hs]. by apply IH.
Qed.

Lemma committeeBefore_stakeOf v1 v2 u1 u2 :
  stakeOf u1 = stakeOf v1 → stakeOf u2 = stakeOf v2 →
  committeeBefore v1 v2 → committeeBefore u1 u2.
Proof.
  unfold stakeOf, committeeBefore. intros [= -> ->] [= -> ->]. done.
Qed.

Lemma StronglySorted_fmap_stakeOf (f : ValidatorMetadata → ValidatorMetadata) l :
  (∀ v, stakeOf (f v) = stakeOf v) →
  StronglySorted committeeBefore l → StronglySorted committeeBefore (f <$> l).
Proof.
  intros Hf. induction 1 as [|x l Hs IH Hx]; simpl; constructor; [done|].
  rewrite Forall_forall in *. intros y (z & -> & Hz)%list_elem_of_fmap.
  eapply committeeBefore_stakeOf; [apply Hf..|]. by apply Hx.
Qed.

Lemma resolved_stakeOf s v : stakeOf (resolved s v) = stakeOf v.
Proof. unfold stakeOf. by rewrite resolved_Address, resolved_VotingPower. Qed.

Lemma next_sorted rng full maxSize next :
  RangeOrder rng →
  getActiveValidators rng (newValidatorStakeMap full) maxSize = Return next →
  StronglySorted committeeBefore next.
Proof.
  intros Hr [_ ->]%getActiveValidators_Return.
  eapply StronglySorted_sublist; [apply sublist_take|].
  apply activeSorted_sorted; [done | apply newValidatorStakeMap_keyed].
Qed.

(** X14. The validators of [Updated] and of [Added] come in the order of
    the next committee: [Updated] is a sub-slice of it, [Added] is one by
    address and voting power, and both are in committee order (descending
    voting power, ties by ascending address). *)
Theorem UpdateValidatorSet_delta_order rng s epoch old w delta w' :
  RangeOrder rng →
  UpdateValidatorSet rng s epoch old w = (Return delta, w') →
  ∃ next,
    getActiveValidators rng (newValidatorStakeMap (snapshot (store w)))
      (maxValidatorSetSize s) = Return next
    ∧ Updated delta `sublist_of` next
    ∧ (stakeOf <$> Added delta) `sublist_of` (stakeOf <$> next)
    ∧ StronglySorted committeeBefore (Updated delta)
    ∧ StronglySorted committeeBefore (Added delta).
Proof.
  intros Hr (next & Hnext & HU & HA & _ & _)%UpdateValidatorSet_delta_eqs.
  exists next. pose proof (next_sorted _ _ _ _ Hr Hnext) as Hs.
  split_and!; [done| | | |].
  - rewrite HU. apply sublist_filter.
  - rewrite HA, <-list_fmap_compose.
    rewrite (list_fmap_ext (stakeOf ∘ resolved s) stakeOf)
      by (intros; apply resolved_stakeOf).
    apply fmap_sublist, sublist_filter.
  - rewrite HU. eapply StronglySorted_sublist; [apply sublist_filter | done].
  - rewrite HA. apply StronglySorted_fmap_stakeOf; [apply resolved_stakeOf|].
    eapply StronglySorted_sublist; [apply sublist_filter | done].
Qed.

(** X15. A delta seats only validators with stake: every validator of
    [Added] and of [Updated] has a strictly positive voting power. *)
Theorem UpdateValidatorSet_delta_positive rng s epoch old w delta w' v :
  RangeOrder rng →
  UpdateValidatorSet rng s epoch old w = (Return delta, w') →
  v ∈ Added delta ∨ v ∈ Updated delta →
  0 < VotingPower v.
Proof.
  intros Hr (next & Hnext & HU & HA & _ & _)%UpdateValidatorSet_delta_eqs Hv.
  assert (Hpos : ∀ u, u ∈ next → 0 < VotingPower u).
  { intros u Hu. apply getActiveValidators_Return in Hnext as [_ ->].
    assert (Hin : u ∈ activeSorted rng (newValidatorStakeMap (snapshot (store w)))).
    { eapply elem_of_sublist; [done | apply sublist_take]. }
    by apply activeSorted_elem_of in Hin as [_ ?]. }
  destruct Hv as [Hv|Hv].
  - rewrite HA in Hv.
    apply list_elem_of_fmap in Hv as (u & -> & [_ Hu]%list_elem_of_filter).
    rewrite resolved_VotingPower. by apply Hpos.
  - rewrite HU in Hv. apply list_elem_of_filter in Hv as [_ Hv]. by apply Hpos.
Qed.

(** X16. A committee member without stake is removed: when the store
    holds no entry for the address at a position of the current committee,
    or holds one with voting power zero or less, that position is marked in
    [Removed]. *)
Theorem UpdateValidatorSet_removes_unstaked rng s epoch old w delta w' i o :
  RangeOrder rng →
  UpdateValidatorSet rng s epoch old w = (Return delta, w') →
  old !! i = Some o →
  powerOf (newValidatorStakeMap (snapshot (store w))) (Address o) ≤ 0 →
  bitmap.IsSet (Removed delta) (N.of_nat i) = true.
Proof.
  intros Hr (next & Hnext & _ & _ & _ & Hrem)%UpdateValidatorSet_delta_eqs Ho Hp.
  apply Hrem. exists o. rewrite Nat2N.id. split; [done|].
  intros (v & Ha & Hv)%list_elem_of_fmap.
  pose proof (next_elem_lookup rng _ _ _ v Hr
                (newValidatorStakeMap_keyed _) Hnext Hv) as Hl.
  assert (0 < VotingPower v).
  { apply getActiveValidators_Return in Hnext as [_ ->].
    assert (Hin : v ∈ activeSorted rng (newValidatorStakeMap (snapshot (store w)))).
    { eapply elem_of_sublist; [done | apply sublist_take]. }
    by apply activeSorted_elem_of in Hin as [_ ?]. }
  unfold powerOf in Hp. rewrite Ha, Hl in Hp. simpl in Hp. lia.
Qed.

(** ** More on [PostBlock] *)

Lemma applyEvents_keyed sc events sc' :
  keyed sc → applyEvents sc events = Return sc' → keyed sc'.
Proof.
  revert sc. induction events as [|event events IH]; intros sc Hk; simpl.
  { by intros [= <-]. }
  destruct (IsStake event).
  - apply IH. by apply addStake_keyed.
  - destruct (IsUnstake event); [|by apply IH].
    destruct (removeStake sc (From event) (Value event)) as [sc1|e|p] eqn:Hr;
      [|done..].
    apply IH. by eapply removeStake_keyed.
Qed.

Lemma applyEvents_is_Some sc events sc' a :
  applyEvents sc events = Return sc' → is_Some (sc !! a) → is_Some (sc' !! a).
Proof.
  revert sc. induction events as [|event events IH]; intros sc; simpl.
  { by intros [= <-]. }
  destruct (IsStake event).
  - intros H Hs. apply (IH _ H), addStake_is_Some. by left.
  - destruct (IsUnstake event); [|by apply IH].
    destruct (removeStake sc (From event) (Value event)) as [sc1|e|p] eqn:Hr;
      [|done..].
    intros H Hs. apply (IH _ H). by apply (removeStake_is_Some _ _ _ _ a Hr).
Qed.

Lemma newValidatorStakeMap_is_Some l v :
  v ∈ l → is_Some (newValidatorStakeMap l !! Address v).
Proof.
  induction l as [|x l IH] using rev_ind; [by intros ?%elem_of_nil|].
  rewrite newValidatorStakeMap_snoc, lookup_insert. intros Hv.
  case_decide; [by eauto|]. apply IH.
  apply elem_of_app in Hv as [?|Hv]; [done|].
  apply list_elem_of_singleton in Hv. congruence.
Qed.

Lemma settled_Address s a data : Address data = a → Address (settled s (a, data)) = a.
Proof.
  intros Ha. unfold settled. simpl.
  destruct (BlsKey data); [done|]. by destruct (rootChainRelayer s a).
Qed.

(** X17. A block without stake events leaves everything as it is:
    [PostBlock] returns nil without reading or writing the store and
    without a registry call, also when the store is faulty. *)
Theorem PostBlock_without_events ParseLog rng s req w :
  getTransferEventsFromReceipts ParseLog s (Receipts req) = Return [] →
  PostBlock ParseLog rng s req w = (Return tt, w).
Proof. intros Hev. unfold PostBlock, mbind, M_bind, lift. by rewrite Hev. Qed.

(** X18. [PostBlock] writes the store all or nothing: unless it returns
    nil for a block with events, read from a store without fault, the store
    is as it was; a failed extraction leaves the whole world as it was. *)
Theorem PostBlock_store_atomic ParseLog rng s req w :
  (store (PostBlock ParseLog rng s req w).2 = store w
   ∨ ((PostBlock ParseLog rng s req w).1 = Return tt
      ∧ loadFault (store w) = None ∧ saveFault (store w) = None
      ∧ ∃ events,
          getTransferEventsFromReceipts ParseLog s (Receipts req) = Return events
          ∧ events ≠ []))
  ∧ (∀ e, getTransferEventsFromReceipts ParseLog s (Receipts req) = Fail e →
          PostBlock ParseLog rng s req w = (Fail e, w)).
Proof.
  split; [|intros e Hev; unfold PostBlock, mbind, M_bind, lift; by rewrite Hev].
  destruct (getTransferEventsFromReceipts ParseLog s (Receipts req))
    as [events|e'|p] eqn:Hev;
    [|left; unfold PostBlock, mbind, M_bind, lift; by rewrite Hev..].
  destruct (decide (events = [])) as [->|Hne].
  { left. unfold PostBlock, mbind, M_bind, lift. by rewrite Hev. }
  destruct (loadFault (store w)) as [err|] eqn:Hload.
  { left. unfold PostBlock, mbind, M_bind, lift, getFullValidatorSet.
    rewrite Hev, decide_False by (by destruct events). by rewrite Hload. }
  destruct (applyEvents (newValidatorStakeMap (snapshot (store w))) events)
    as [stakeMap|e'|p] eqn:Happ.
  - rewrite (PostBlock_run _ _ _ _ _ events stakeMap) by done.
    unfold insertFullValidatorSet. simpl.
    destruct (saveFault (store w)) eqn:Hsave; simpl; [by left|].
    right. split_and!; [done..|]. by exists events.
  - by apply applyEvents_no_Fail in Happ.
  - left. unfold PostBlock, mbind, M_bind, lift, getFullValidatorSet.
    rewrite Hev, decide_False by (by destruct events).
    by rewrite Hload, Happ.
Qed.

(** X19. [PostBlock] never drops a validator: the new full set holds
    every address of the stake map after the events exactly once, and in
    particular every address of the full set it read. *)
Theorem PostBlock_never_deletes ParseLog rng s req w events stakeMap :
  RangeOrder rng →
  getTransferEventsFromReceipts ParseLog s (Receipts req) = Return events →
  events ≠ [] →
  loadFault (store w) = None → saveFault (store w) = None →
  applyEvents (newValidatorStakeMap (snapshot (store w))) events = Return stakeMap →
  Address <$> snapshot (store (PostBlock ParseLog rng s req w).2)
    ≡ₚ (map_to_list stakeMap).*1
  ∧ NoDup (Address <$> snapshot (store (PostBlock ParseLog rng s req w).2))
  ∧ (∀ v, v ∈ snapshot (store w) →
          Address v ∈ Address <$> snapshot (store (PostBlock ParseLog rng s req w).2)).
Proof.
  intros Hr Hev Hne Hload Hsave Happ.
  rewrite (PostBlock_run _ _ _ _ _ events stakeMap) by done.
  unfold insertFullValidatorSet. simpl. rewrite Hsave. simpl.
  assert (Hk : keyed stakeMap).
  { eapply applyEvents_keyed; [apply newValidatorStakeMap_keyed | done]. }
  assert (Hperm : Address <$> (settled s <$> rng stakeMap)
                  ≡ₚ (map_to_list stakeMap).*1).
  { rewrite (Hr stakeMap), <-list_fmap_compose. apply reflexive_eq.
    apply Forall_fmap_ext, Forall_forall. intros [a data] Hin. simpl.
    apply settled_Address, Hk. by apply elem_of_map_to_list. }
  split_and!; [done| |].
  - rewrite Hperm. apply NoDup_fst_map_to_list.
  - intros v Hv. rewrite Hperm.
    destruct (applyEvents_is_Some _ _ _ (Address v) Happ) as [v' Hv'].
    { by apply newValidatorStakeMap_is_Some. }
    apply list_elem_of_fmap. exists (Address v, v'). split; [done|].
    by apply elem_of_map_to_list.
Qed.

(** X20. In a block with events, [PostBlock] calls the registry once for
    every entry of the stake map that has no key, whatever the earlier
    answers were, and for no entry that has one. *)
Theorem PostBlock_registry_calls ParseLog rng s req w events stakeMap :
  RangeOrder rng →
  getTransferEventsFromReceipts ParseLog s (Receipts req) = Return events →
  events ≠ [] →
  loadFault (store w) = None →
  applyEvents (newValidatorStakeMap (snapshot (store w))) events = Return stakeMap →
  ∃ calls,
    registryCalls (PostBlock ParseLog rng s req w).2 = registryCalls w ++ calls
    ∧ calls ≡ₚ (filter (λ e, BlsKey e.2 = None) (map_to_list stakeMap)).*1
    ∧ NoDup calls
    ∧ (∀ a, a ∈ calls ↔ ∃ data, stakeMap !! a = Some data ∧ BlsKey data = None).
Proof.
  intros Hr Hev Hne Hload Happ.
  rewrite (PostBlock_run _ _ _ _ _ events stakeMap) by done.
  exists (filter (λ e, BlsKey e.2 = None) (rng stakeMap)).*1.
  assert (Hperm : (filter (λ e, BlsKey e.2 = None) (rng stakeMap)).*1
                  ≡ₚ (filter (λ e, BlsKey e.2 = None) (map_to_list stakeMap)).*1).
  { by rewrite (Hr stakeMap). }
  split_and!.
  - unfold insertFullValidatorSet. simpl. by destruct (saveFault (store w)).
  - done.
  - rewrite Hperm. apply (sublist_NoDup _ (map_to_list stakeMap).*1).
    + apply NoDup_fst_map_to_list.
    + apply fmap_sublist, sublist_filter.
  - intros a. rewrite Hperm, list_elem_of_fmap. split.
    + intros ([a' data] & -> & [Hk Hin]%list_elem_of_filter). exists data.
      split; [by apply elem_of_map_to_list | done].
    + intros (data & Hl & Hk). exists (a, data). split; [done|].
      apply list_elem_of_filter. split; [done | by apply elem_of_map_to_list].
Qed.

(** X21. [PostBlock] persists an entry that has a key with that key, and
    an entry without one whose lookup succeeds with the key the registry
    gave; in both cases with the voting power of the stake map and
    [IsActive] recomputed from it, whatever the registry says of the
    validator's activity. *)
Theorem PostBlock_persists_keys ParseLog rng s req w events stakeMap :
  RangeOrder rng →
  getTransferEventsFromReceipts ParseLog s (Receipts req) = Return events →
  events ≠ [] →
  loadFault (store w) = None → saveFault (store w) = None →
  applyEvents (newValidatorStakeMap (snapshot (store w))) events = Return stakeMap →
  (∀ addr data key,
     stakeMap !! addr = Some data → BlsKey data = Some key →
     {| Address := addr; BlsKey := Some key; VotingPower := VotingPower data;
        IsActive := bool_decide (0 < VotingPower data) |}
     ∈ snapshot (store (PostBlock ParseLog rng s req w).2))
  ∧ (∀ addr data pubKey,
       stakeMap !! addr = Some data → BlsKey data = None →
       rootChainRelayer s addr = inr pubKey →
       {| Address := addr; BlsKey := Some pubKey; VotingPower := VotingPower data;
          IsActive := bool_decide (0 < VotingPower data) |}
       ∈ snapshot (store (PostBlock ParseLog rng s req w).2)).
Proof.
  intros Hr Hev Hne Hload Hsave Happ.
  rewrite (PostBlock_run _ _ _ _ _ events stakeMap) by done.
  unfold insertFullValidatorSet. simpl. rewrite Hsave. simpl.
  assert (Hk : keyed stakeMap).
  { eapply applyEvents_keyed; [apply newValidatorStakeMap_keyed | done]. }
  assert (Hin : ∀ addr data, stakeMap !! addr = Some data →
                  settled s (addr, data) ∈ settled s <$> rng stakeMap).
  { intros addr data Hl. apply list_elem_of_fmap_2. rewrite (Hr stakeMap).
    by apply elem_of_map_to_list. }
  split.
  - intros addr data key Hl Hkey. specialize (Hin addr data Hl).
    unfold settled in Hin. simpl in Hin. rewrite Hkey in Hin.
    by rewrite Hkey, (Hk addr data Hl) in Hin.
  - intros addr data pubKey Hl Hkey Hreg. specialize (Hin addr data Hl).
    unfold settled in Hin. simpl in Hin. by rewrite Hkey, Hreg in Hin.
Qed.

(** ** More on [getTransferEventsFromReceipts] *)

Lemma candidateLogs_app s receipts1 receipts2 :
  candidateLogs s (receipts1 ++ receipts2)
  = candidateLogs s receipts1 ++ candidateLogs s receipts2.
Proof. unfold candidateLogs. by rewrite filter_app, bind_app. Qed.

(** X22. The extraction goes through the receipts in order: the events of
    two batches of receipts joined are the events of the first followed by
    the events of the second, and the first parse error of the first batch,
    or else of the second, is the outcome. *)
Theorem getTransferEventsFromReceipts_app ParseLog s receipts1 receipts2 :
  getTransferEventsFromReceipts ParseLog s (receipts1 ++ receipts2)
  = match getTransferEventsFromReceipts ParseLog s receipts1 with
    | Return events1 =>
        match getTransferEventsFromReceipts ParseLog s receipts2 with
        | Return events2 => Return (events1 ++ events2)
        | other => other
        end
    | other => other
    end.
Proof.
  unfold getTransferEventsFromReceipts.
  rewrite !scanReceipts_spec, candidateLogs_app, !omap_app. simpl.
  destruct (omap (parseError ParseLog) (candidateLogs s receipts1)); simpl; [|done].
  by destruct (head _).
Qed.

(** X23. Receipts without a success status give no event and no error,
    whatever their logs hold. *)
Theorem getTransferEventsFromReceipts_no_success ParseLog s receipts :
  Forall (λ r, Status r ≠ Some ReceiptSuccess) receipts →
  getTransferEventsFromReceipts ParseLog s receipts = Return [].
Proof.
  intros Hall. unfold getTransferEventsFromReceipts. rewrite scanReceipts_spec.
  assert (candidateLogs s receipts = []) as ->; [|done].
  unfold candidateLogs. rewrite filter_none; [done|].
  intros r Hr. rewrite Forall_forall in Hall. by apply Hall.
Qed.

(** * Properties of the relayer service *)

Module ServiceProperties.
Import service.

Lemma fillTopics_spec source pre pad post :
  length pad = length source →
  fillTopics (length pre) source (pre ++ pad ++ post) = pre ++ source ++ post.
Proof.
  revert pre pad. induction source as [|topic source IH]; intros pre pad Hlen.
  { by destruct pad. }
  destruct pad as [|p pad]; [done|]. simpl in *.
  rewrite insert_app_r_alt by done. rewrite Nat.sub_diag. simpl.
  rewrite (cons_middle topic pre), app_assoc.
  replace (S (length pre)) with (length (pre ++ [topic]))
    by (rewrite length_app; simpl; lia).
  rewrite IH by lia. by rewrite <-app_assoc.
Qed.

Lemma fillTopics_all source :
  fillTopics 0 source (replicate (length source) zeroHash) = source.
Proof.
  pose proof (fillTopics_spec source [] (replicate (length source) zeroHash) [])
    as H.
  simpl in H. rewrite !app_nil_r in H. apply H. apply length_replicate.
Qed.

(** A log of the receipt as a log of the state transaction. *)
Lemma fillLogs_spec source (pre pad post : list Log) :
  length pad = length source →
  fillLogs (length pre) source (pre ++ pad ++ post)
  = pre ++ ((λ log, {| Address := ethgo.Address log; Data := ethgo.Data log;
                       Topics := ethgo.Topics log |}) <$> source) ++ post.
Proof.
  revert pre pad. induction source as [|log source IH]; intros pre pad Hlen.
  { by destruct pad. }
  destruct pad as [|p pad]; [done|]. simpl in *.
  rewrite insert_app_r_alt by done. rewrite Nat.sub_diag. simpl.
  rewrite fillTopics_all.
  match goal with |- fillLogs _ _ (pre ++ ?x :: _) = _ =>
    rewrite (cons_middle x pre), app_assoc;
    replace (S (length pre)) with (length (pre ++ [x]))
      by (rewrite length_app; simpl; lia)
  end.
  rewrite IH by lia. by rewrite <-app_assoc.
Qed.

(** X24. [populateStateTx] copies the receipt into the state transaction:
    the gas used, the block and transaction data, and the logs one for one
    in order, each with its address, data and topics; the identifier, the
    payload, the error and the status stay as they were. *)
Theorem populateStateTx_copies stateTx receipt :
  populateStateTx stateTx receipt
  = {| ID := ID stateTx; Tx := Tx stateTx; Error := Error stateTx;
       Status := Status stateTx;
       Gas := ethgo.GasUsed receipt;
       Mined :=
         Some {| BlockHash := ethgo.BlockHash receipt;
                 BlockNumber := ethgo.BlockNumber receipt;
                 TxnHash := ethgo.TransactionHash receipt;
                 GasUsed := ethgo.GasUsed receipt;
                 Logs := (λ log, {| Address := ethgo.Address log;
                                    Data := ethgo.Data log;
                                    Topics := ethgo.Topics log |})
                         <$> ethgo.Logs receipt |} |}.
Proof.
  unfold populateStateTx. do 3 f_equal.
  pose proof (fillLogs_spec (ethgo.Logs receipt) []
                (replicate (length (ethgo.Logs receipt)) zeroLog) []) as H.
  simpl in H. rewrite !app_nil_r in H. apply H. apply length_replicate.
Qed.

(** X25. [executeJob] returns nil exactly when the transaction was sent
    and the last update of the state succeeded: a receipt that does not
    come, and a failed update of the queued status, are not returned as
    errors. *)
Theorem executeJob_nil_iff rs stateTx w :
  (executeJob rs stateTx w).1.1 = None
  ↔ ∃ hash,
      SendTransaction (txSender rs) (makeEthgoTransaction rs stateTx) (key rs)
      = inr hash
      ∧ Update (state rs) (executeJob rs stateTx w).1.2 = None.
Proof.
  unfold executeJob.
  destruct (SendTransaction _ _ _) as [err|hash] eqn:Hsend.
  - split; [|by intros (? & ? & _)].
    destruct (isNetError err); [done|].
    by destruct (Update (state rs) (setError stateTx (Error_ err))).
  - simpl. match goal with |- context [Update (state rs) ?t] =>
      destruct (Update (state rs) t) eqn:Hup end; simpl.
    + split; [done|]. intros (? & _ & H). congruence.
    + split; [|done]. intros _. by exists hash.
Qed.

(** X26. The transaction goes back to the pool exactly when the send
    fails with a network error: then it is pushed as it was, nothing is
    handed to the state and the send's own error is returned; in every other
    case nothing is pushed and the state is handed the transaction at least
    once. *)
Theorem executeJob_push_iff rs stateTx w :
  match SendTransaction (txSender rs) (makeEthgoTransaction rs stateTx) (key rs) with
  | inl err =>
      if isNetError err
      then executeJob rs stateTx w
           = (Some err, stateTx,
              {| pushed := pushed w ++ [stateTx]; updated := updated w |})
      else pushed (executeJob rs stateTx w).2 = pushed w
           ∧ ∃ handed, updated (executeJob rs stateTx w).2 = updated w ++ [handed]
  | inr _ =>
      pushed (executeJob rs stateTx w).2 = pushed w
      ∧ ∃ queued final,
          updated (executeJob rs stateTx w).2 = updated w ++ [queued; final]
  end.
Proof.
  unfold executeJob.
  destruct (SendTransaction _ _ _) as [err|hash].
  - destruct (isNetError err); [done|].
    destruct (Update (state rs) (setError stateTx (Error_ err))); simpl;
      (split; [done | by eexists]).
  - match goal with |- context [Update (state rs) ?t] =>
      destruct (Update (state rs) t) end; simpl;
      (split; [done|]); do 2 eexists; by rewrite <-app_assoc.
Qed.

(** X27. After a successful send the state is handed the transaction
    twice, first queued and then in its final status, which is never
    queued: completed, with gas and mined data of the receipt and the error
    it had before, when the receipt came, and failed, with the error of the
    wait and the other fields untouched, when it did not. The method leaves
    the transaction in that final state. *)
Theorem executeJob_final_status rs stateTx w hash :
  SendTransaction (txSender rs) (makeEthgoTransaction rs stateTx) (key rs)
  = inr hash →
  updated (executeJob rs stateTx w).2
  = updated w ++ [setStatus stateTx StatusQueued; (executeJob rs stateTx w).1.2]
  ∧ match WaitForReceipt (txSender rs) hash (receiptDelay rs) (numRetries rs) with
    | inr receipt =>
        (executeJob rs stateTx w).1.2
        = populateStateTx (setStatus stateTx StatusCompleted) receipt
        ∧ Status (executeJob rs stateTx w).1.2 = StatusCompleted
        ∧ Error (executeJob rs stateTx w).1.2 = Error stateTx
        ∧ Gas (executeJob rs stateTx w).1.2 = ethgo.GasUsed receipt
        ∧ is_Some (Mined (executeJob rs stateTx w).1.2)
    | inl err =>
        (executeJob rs stateTx w).1.2
        = {| ID := ID stateTx; Tx := Tx stateTx; Error := Some (Error_ err);
             Status := StatusFailed; Gas := Gas stateTx; Mined := Mined stateTx |}
    end.
Proof.
  intros Hsend. unfold executeJob. rewrite Hsend.
  destruct (WaitForReceipt _ _ _ _) as [err|receipt];
    match goal with |- context [Update (state rs) ?t] =>
      destruct (Update (state rs) t) end; simpl;
    rewrite <-?app_assoc; by split_and!.
Qed.

(** X28. When the send is rejected (an error that is no network error),
    the state is handed the transaction once, with the send's error message;
    if that update fails too, the message the transaction is left with is
    the update's, not the send's, because the error field points to the
    variable that the update's message is assigned to. The error returned
    wraps the send's error in both cases. *)
Theorem executeJob_rejected rs stateTx w err :
  SendTransaction (txSender rs) (makeEthgoTransaction rs stateTx) (key rs)
  = inl err →
  isNetError err = false →
  updated (executeJob rs stateTx w).2
  = updated w ++ [setError stateTx (Error_ err)]
  ∧ pushed (executeJob rs stateTx w).2 = pushed w
  ∧ Status (executeJob rs stateTx w).1.2 = Status stateTx
  ∧ match Update (state rs) (setError stateTx (Error_ err)) with
    | Some errUpdate =>
        Error (executeJob rs stateTx w).1.2 = Some (Error_ errUpdate)
        ∧ (executeJob rs stateTx w).1.1
          = Some (ErrNonceAndUpdate (ID stateTx) err (Error_ errUpdate))
    | None =>
        Error (executeJob rs stateTx w).1.2 = Some (Error_ err)
        ∧ (executeJob rs stateTx w).1.1 = Some (ErrNonce (ID stateTx) err)
    end.
Proof.
  intros Hsend Hnet. unfold executeJob. rewrite Hsend, Hnet.
  by destruct (Update (state rs) (setError stateTx (Error_ err))).
Qed.

(** X29. [executeJob] acts on the transaction it was given and on no
    other: the transaction it leaves, the ones it pushes and the ones it
    hands to the state all have the identifier and the payload of the
    input. *)
Theorem executeJob_same_transaction rs stateTx w :
  ID (executeJob rs stateTx w).1.2 = ID stateTx
  ∧ Tx (executeJob rs stateTx w).1.2 = Tx stateTx
  ∧ ∃ pushes updates,
      pushed (executeJob rs stateTx w).2 = pushed w ++ pushes
      ∧ updated (executeJob rs stateTx w).2 = updated w ++ updates
      ∧ Forall (λ t, ID t = ID stateTx ∧ Tx t = Tx stateTx) (pushes ++ updates).
Proof.
  unfold executeJob.
  destruct (SendTransaction _ _ _) as [err|hash].
  - destruct (isNetError err).
    + split_and!; [done..|]. exists [stateTx], []. rewrite app_nil_r.
      split_and!; [done..|]. by repeat constructor.
    + destruct (Update (state rs) (setError stateTx (Error_ err))); simpl;
        (split_and!; [done..|]); exists [], [setError stateTx (Error_ err)];
        rewrite app_nil_r; (split_and!; [done..|]); by repeat constructor.
  - destruct (WaitForReceipt _ _ _ _) as [err|receipt];
      match goal with |- context [Update (state rs) ?t] =>
        destruct (Update (state rs) t);
        simpl; (split_and!; [done..|]);
        exists [], [setStatus stateTx StatusQueued; t]
      end;
      rewrite app_nil_r, <-?app_assoc; (split_and!; [done..|]);
      by repeat constructor.
Qed.

(** X30. The options of [NewAARelayerService] are applied in order and
    each sets its own field only: an option added at the end decides its
    field and leaves the two others as the earlier options set them; without
    options the service pulls every five seconds, waits half a second
    between receipt queries and retries a hundred times. *)
Theorem NewAARelayerService_options txSender state key opts n :
  let before := NewAARelayerService txSender state key opts in
  (let after := NewAARelayerService txSender state key (opts ++ [WithPullTime n]) in
   pullTime after = n ∧ receiptDelay after = receiptDelay before
   ∧ numRetries after = numRetries before)
  ∧ (let after :=
       NewAARelayerService txSender state key (opts ++ [WithReceiptDelay n]) in
     receiptDelay after = n ∧ pullTime after = pullTime before
     ∧ numRetries after = numRetries before)
  ∧ (let after :=
       NewAARelayerService txSender state key (opts ++ [WithNumRetries n]) in
     numRetries after = n ∧ pullTime after = pullTime before
     ∧ receiptDelay after = receiptDelay before)
  ∧ pullTime (NewAARelayerService txSender state key []) = 5000000000
  ∧ receiptDelay (NewAARelayerService txSender state key []) = 500000000
  ∧ numRetries (NewAARelayerService txSender state key []) = 100.
Proof.
  unfold NewAARelayerService. rewrite !foldl_app. simpl. by split_and!.
Qed.

End ServiceProperties.

(** * The further properties at concrete inputs *)

Lemma batch_applies :
  applyEvents SampleMore.stakeMapBefore SampleMore.batch
  = Return SampleMore.stakeMapAfterBatch.
Proof. vm_compute. reflexivity. Qed.

Lemma block_events :
  getTransferEventsFromReceipts Sample.parseLog Sample.manager
    (Receipts Sample.block) = Return Sample.stakeEvents.
Proof. vm_compute. reflexivity. Qed.

Lemma block_applies :
  applyEvents (newValidatorStakeMap (snapshot (store Sample.world)))
    Sample.stakeEvents = Return Sample.stakeMapAfter.
Proof. reflexivity. Qed.

Lemma stakeEvents_nonempty : Sample.stakeEvents ≠ [].
Proof. discriminate. Qed.

Lemma sample_run :
  UpdateValidatorSet Sample.forwards Sample.manager 1 Sample.committee
    Sample.world = (Return Sample.delta, Sample.worldAfter).
Proof. vm_compute. reflexivity. Qed.

Lemma sample_run_D :
  UpdateValidatorSet Sample.forwards Sample.manager 1 SampleMore.committeeD
    Sample.world = (Return SampleMore.deltaD, Sample.worldAfter).
Proof. vm_compute. reflexivity. Qed.

Lemma applyEvents_accounting_witness :
  applyEvents SampleMore.stakeMapBefore SampleMore.batch
  = Return SampleMore.stakeMapAfterBatch
  ∧ powerOf SampleMore.stakeMapAfterBatch Sample.F
    = powerOf SampleMore.stakeMapBefore Sample.F
      + stakedTo Sample.F SampleMore.batch
      - unstakedFrom Sample.F SampleMore.batch.
Proof.
  split; [apply batch_applies|].
  apply (applyEvents_accounting SampleMore.stakeMapBefore SampleMore.batch
           SampleMore.stakeMapAfterBatch Sample.F batch_applies).
Defined.

Lemma applyEvents_keeps_entries_witness :
  applyEvents SampleMore.stakeMapBefore SampleMore.batch
  = Return SampleMore.stakeMapAfterBatch
  ∧ (∀ a v, SampleMore.stakeMapBefore !! a = Some v →
            ∃ v', SampleMore.stakeMapAfterBatch !! a = Some v'
                  ∧ Address v' = Address v ∧ BlsKey v' = BlsKey v)
  ∧ (∀ a v', SampleMore.stakeMapAfterBatch !! a = Some v' →
             SampleMore.stakeMapBefore !! a = None →
             Address v' = a ∧ BlsKey v' = None
             ∧ ∃ event, event ∈ SampleMore.batch ∧ IsStake event = true
                        ∧ To event = a).
Proof.
  split; [apply batch_applies|].
  apply (applyEvents_keeps_entries SampleMore.stakeMapBefore SampleMore.batch
           SampleMore.stakeMapAfterBatch batch_applies).
Defined.

Lemma stakeMapBefore_invariant :
  ∀ a v, SampleMore.stakeMapBefore !! a = Some v →
         IsActive v = bool_decide (0 < VotingPower v).
Proof.
  apply (map_Forall_lookup
           (λ _ v, IsActive v = bool_decide (0 < VotingPower v))).
  apply (bool_decide_unpack _). vm_compute. exact I.
Qed.

Lemma batch_positive :
  ∀ event, event ∈ SampleMore.batch → IsStake event = true → 0 < Value event.
Proof.
  apply (Forall_forall (λ event, IsStake event = true → 0 < Value event)).
  apply (bool_decide_unpack _). vm_compute. exact I.
Qed.

Lemma applyEvents_IsActive_witness :
  applyEvents SampleMore.stakeMapBefore SampleMore.batch
  = Return SampleMore.stakeMapAfterBatch
  ∧ ∃ v, SampleMore.stakeMapAfterBatch !! Sample.B = Some v
         ∧ IsActive v = bool_decide (0 < VotingPower v).
Proof.
  split; [apply batch_applies|]. eexists. split; [reflexivity|].
  apply (applyEvents_IsActive SampleMore.stakeMapBefore SampleMore.batch
           SampleMore.stakeMapAfterBatch stakeMapBefore_invariant batch_positive
           batch_applies Sample.B).
  reflexivity.
Defined.

Lemma getActiveValidators_prefix_witness :
  0 ≤ 2 ∧ 2 ≤ 3
  ∧ ∃ small large,
      getActiveValidators Sample.forwards SampleMore.stakeMapBefore 2 = Return small
      ∧ getActiveValidators Sample.forwards SampleMore.stakeMapBefore 3
        = Return large
      ∧ small `prefix_of` large.
Proof.
  split; [lia|]. split; [lia|].
  apply (getActiveValidators_prefix Sample.forwards SampleMore.stakeMapBefore 2 3);
    lia.
Defined.

Lemma B_left_out :
  Sample.validator Sample.B (Some (Sample.key 20)) 50 ∉ Sample.nextCommittee.
Proof. apply (bool_decide_unpack _). vm_compute. exact I. Qed.

Lemma A_selected :
  Sample.validator Sample.A (Some (Sample.key 10)) 100 ∈ Sample.nextCommittee.
Proof. apply (bool_decide_unpack _). vm_compute. exact I. Qed.

Lemma sample_selection :
  getActiveValidators Sample.forwards SampleMore.stakeMapBefore 3
  = Return Sample.nextCommittee.
Proof. vm_compute. reflexivity. Qed.

Lemma getActiveValidators_top_witness :
  getActiveValidators Sample.forwards SampleMore.stakeMapBefore 3
  = Return Sample.nextCommittee
  ∧ committeeBefore (Sample.validator Sample.A (Some (Sample.key 10)) 100)
      (Sample.validator Sample.B (Some (Sample.key 20)) 50).
Proof.
  split; [apply sample_selection|].
  apply (getActiveValidators_top Sample.forwards SampleMore.stakeMapBefore 3
           Sample.nextCommittee _ _ Sample.B forwards_RangeOrder
           (newValidatorStakeMap_keyed _) sample_selection A_selected);
    [reflexivity | reflexivity | apply B_left_out].
Defined.

Lemma UpdateValidatorSet_unchanged_committee_witness :
  RangeOrder Sample.forwards
  ∧ loadFault (store Sample.world3) = None
  ∧ getActiveValidators Sample.forwards
      (newValidatorStakeMap (snapshot (store Sample.world3)))
      (maxValidatorSetSize Sample.manager) = Return Sample.nextCommittee3
  ∧ UpdateValidatorSet Sample.forwards Sample.manager 4 Sample.nextCommittee3
      Sample.world3
    = (Return {| Added := []; Updated := []; Removed := bitmap.empty |},
       Sample.world3).
Proof.
  split; [apply forwards_RangeOrder|]. split; [reflexivity|].
  split; [vm_compute; reflexivity|].
  apply (UpdateValidatorSet_unchanged_committee Sample.forwards Sample.manager 4
           Sample.nextCommittee3 Sample.world3 forwards_RangeOrder eq_refl).
  vm_compute. reflexivity.
Defined.

Lemma UpdateValidatorSet_delta_order_witness :
  UpdateValidatorSet Sample.forwards Sample.manager 1 Sample.committee
    Sample.world = (Return Sample.delta, Sample.worldAfter)
  ∧ ∃ next,
      getActiveValidators Sample.forwards
        (newValidatorStakeMap (snapshot (store Sample.world)))
        (maxValidatorSetSize Sample.manager) = Return next
      ∧ Updated Sample.delta `sublist_of` next
      ∧ (stakeOf <$> Added Sample.delta) `sublist_of` (stakeOf <$> next)
      ∧ StronglySorted committeeBefore (Updated Sample.delta)
      ∧ StronglySorted committeeBefore (Added Sample.delta).
Proof.
  split; [apply sample_run|].
  apply (UpdateValidatorSet_delta_order Sample.forwards Sample.manager 1
           Sample.committee Sample.world Sample.delta Sample.worldAfter
           forwards_RangeOrder sample_run).
Defined.

Lemma UpdateValidatorSet_delta_positive_witness :
  UpdateValidatorSet Sample.forwards Sample.manager 1 Sample.committee
    Sample.world = (Return Sample.delta, Sample.worldAfter)
  ∧ 0 < VotingPower (Sample.validator Sample.C (Some (Sample.key 30)) 75).
Proof.
  split; [apply sample_run|].
  apply (UpdateValidatorSet_delta_positive Sample.forwards Sample.manager 1
           Sample.committee Sample.world Sample.delta Sample.worldAfter _
           forwards_RangeOrder sample_run).
  left. apply (bool_decide_unpack _). vm_compute. exact I.
Defined.

Lemma UpdateValidatorSet_removes_unstaked_witness :
  UpdateValidatorSet Sample.forwards Sample.manager 1 SampleMore.committeeD
    Sample.world = (Return SampleMore.deltaD, Sample.worldAfter)
  ∧ SampleMore.committeeD !! 1%nat
    = Some (Sample.validator Sample.D (Some (Sample.key 40)) 10)
  ∧ powerOf (newValidatorStakeMap (snapshot (store Sample.world))) Sample.D ≤ 0
  ∧ bitmap.IsSet (Removed SampleMore.deltaD) (N.of_nat 1) = true.
Proof.
  assert (Hp : powerOf (newValidatorStakeMap (snapshot (store Sample.world)))
                 Sample.D ≤ 0) by (vm_compute; discriminate).
  split; [apply sample_run_D|]. split; [reflexivity|]. split; [exact Hp|].
  apply (UpdateValidatorSet_removes_unstaked Sample.forwards Sample.manager 1
           SampleMore.committeeD Sample.world SampleMore.deltaD Sample.worldAfter
           1%nat (Sample.validator Sample.D (Some (Sample.key 40)) 10)
           forwards_RangeOrder sample_run_D eq_refl Hp).
Defined.

Lemma PostBlock_without_events_witness :
  getTransferEventsFromReceipts Sample.parseLog Sample.manager
    (Receipts SampleMore.emptyBlock) = Return []
  ∧ PostBlock Sample.parseLog Sample.forwards Sample.manager SampleMore.emptyBlock
      SampleMore.faultyWorld = (Return tt, SampleMore.faultyWorld).
Proof.
  split; [reflexivity|].
  apply (PostBlock_without_events Sample.parseLog Sample.forwards Sample.manager
           SampleMore.emptyBlock SampleMore.faultyWorld eq_refl).
Defined.

Lemma PostBlock_never_deletes_witness :
  Address <$> snapshot (store (PostBlock Sample.parseLog Sample.forwards
                                 Sample.manager Sample.block Sample.world).2)
    ≡ₚ (map_to_list Sample.stakeMapAfter).*1
  ∧ NoDup (Address <$> snapshot (store (PostBlock Sample.parseLog Sample.forwards
                                          Sample.manager Sample.block
                                          Sample.world).2))
  ∧ (∀ v, v ∈ snapshot (store Sample.world) →
          Address v ∈ Address <$> snapshot
            (store (PostBlock Sample.parseLog Sample.forwards Sample.manager
                      Sample.block Sample.world).2)).
Proof.
  apply (PostBlock_never_deletes Sample.parseLog Sample.forwards Sample.manager
           Sample.block Sample.world Sample.stakeEvents Sample.stakeMapAfter
           forwards_RangeOrder block_events stakeEvents_nonempty eq_refl eq_refl
           block_applies).
Defined.

Lemma PostBlock_registry_calls_witness :
  ∃ calls,
    registryCalls (PostBlock Sample.parseLog Sample.forwards Sample.manager
                     Sample.block Sample.world).2
    = registryCalls Sample.world ++ calls
    ∧ calls ≡ₚ (filter (λ e, BlsKey e.2 = None)
                  (map_to_list Sample.stakeMapAfter)).*1
    ∧ NoDup calls
    ∧ (∀ a, a ∈ calls
            ↔ ∃ data, Sample.stakeMapAfter !! a = Some data ∧ BlsKey data = None).
Proof.
  apply (PostBlock_registry_calls Sample.parseLog Sample.forwards Sample.manager
           Sample.block Sample.world Sample.stakeEvents Sample.stakeMapAfter
           forwards_RangeOrder block_events stakeEvents_nonempty eq_refl
           block_applies).
Defined.

Lemma PostBlock_persists_keys_witness :
  (∀ addr data key,
     Sample.stakeMapAfter !! addr = Some data → BlsKey data = Some key →
     {| Address := addr; BlsKey := Some key; VotingPower := VotingPower data;
        IsActive := bool_decide (0 < VotingPower data) |}
     ∈ snapshot (store (PostBlock Sample.parseLog Sample.forwards Sample.manager
                          Sample.block Sample.world).2))
  ∧ (∀ addr data pubKey,
       Sample.stakeMapAfter !! addr = Some data → BlsKey data = None →
       rootChainRelayer Sample.manager addr = inr pubKey →
       {| Address := addr; BlsKey := Some pubKey; VotingPower := VotingPower data;
          IsActive := bool_decide (0 < VotingPower data) |}
       ∈ snapshot (store (PostBlock Sample.parseLog Sample.forwards Sample.manager
                            Sample.block Sample.world).2)).
Proof.
  apply (PostBlock_persists_keys Sample.parseLog Sample.forwards Sample.manager
           Sample.block Sample.world Sample.stakeEvents Sample.stakeMapAfter
           forwards_RangeOrder block_events stakeEvents_nonempty eq_refl eq_refl
           block_applies).
Defined.

Lemma getTransferEventsFromReceipts_no_success_witness :
  Forall (λ r, Status r ≠ Some ReceiptSuccess) [Sample.failedReceipt]
  ∧ getTransferEventsFromReceipts Sample.parseLog Sample.manager
      [Sample.failedReceipt] = Return [].
Proof.
  assert (H : Forall (λ r, Status r ≠ Some ReceiptSuccess) [Sample.failedReceipt])
    by (by repeat constructor).
  split; [exact H|].
  apply (getTransferEventsFromReceipts_no_success Sample.parseLog Sample.manager
           [Sample.failedReceipt] H).
Defined.

Lemma executeJob_final_status_witness :
  service.updated (service.executeJob ServiceSample.mining ServiceSample.stateTx
                     ServiceSample.world).2
  = [service.setStatus ServiceSample.stateTx service.StatusQueued;
     service.populateStateTx
       (service.setStatus ServiceSample.stateTx service.StatusCompleted)
       ServiceSample.receipt]
  ∧ service.Error (service.executeJob ServiceSample.mining ServiceSample.stateTx
                     ServiceSample.world).1.2 = Some "stale".
Proof.
  destruct (ServiceProperties.executeJob_final_status ServiceSample.mining
              ServiceSample.stateTx ServiceSample.world
              (replicate 32 Byte.xaa) eq_refl) as [Hu Hf].
  simpl in Hf. destruct Hf as (_ & _ & He & _).
  split; [rewrite Hu; reflexivity | exact He].
Defined.

Lemma executeJob_rejected_witness :
  service.Error (service.executeJob ServiceSample.rejecting ServiceSample.stateTx
                   ServiceSample.world).1.2 = Some "database closed"
  ∧ service.updated (service.executeJob ServiceSample.rejecting
                       ServiceSample.stateTx ServiceSample.world).2
    = [service.setError ServiceSample.stateTx "nonce too low"].
Proof.
  destruct (ServiceProperties.executeJob_rejected ServiceSample.rejecting
              ServiceSample.stateTx ServiceSample.world
              (service.External "nonce too low" false) eq_refl eq_refl)
    as (Hu & _ & _ & Hm).
  simpl in Hm. destruct Hm as [He _]. split; [exact He | exact Hu].
Defined.
